(** * fuse-badsector-simulator: the sector fault injection engine

    A shallow embedding of [fuse-badsector-simulator.c]: the parser of the
    bad-sector list ([get_sector_count], [add_bad_sectors],
    [build_bad_sector_list]), the repair of a bad sector
    ([repair_bad_sector]) and the two I/O callbacks ([read_callback],
    [write_callback]).

    Machine integers are mathematical integers with the wrap-around of the
    C conversions written out: [size_t] and [unsigned long] are 64-bit
    unsigned, [off_t] is 64-bit signed.  A computation that the C standard
    leaves undefined (a store outside the allocated array, a read past its
    end, an array cell that was never written, a loop counter of type [off_t]
    incremented past its largest value) has no result: the functions that
    can reach one return [option], and [None] is that outcome. *)

From Stdlib Require Import ZArith Ascii String Lia.
From stdpp Require Import base tactics option numbers list.

Local Open Scope Z_scope.

(** ** Machine integers *)

Definition wrap64u (z : Z) : Z := z mod 2 ^ 64.
Definition wrap64s (z : Z) : Z := (z + 2 ^ 63) mod 2 ^ 64 - 2 ^ 63.

Definition ULONG_MAX : Z := 2 ^ 64 - 1.
Definition PTRDIFF_MAX : Z := 2 ^ 63 - 1.

(** The largest [off_t]. *)
Definition OFF_T_MAX : Z := 2 ^ 63 - 1.

(** [ENOENT] of [<errno.h>] *)
Definition ENOENT : Z := 2.

(** [const static size_t sector_size = 512;] *)
Definition sector_size : Z := 512.

(** [sizeof(off_t)] *)
Definition sizeof_off_t : Z := 8.

(** ** The C library's [strtoul], base 10

    White space is skipped, one optional sign is read, then the longest run
    of decimal digits.  Without a digit no conversion is performed: the value
    is 0 and the end pointer is the start of the string.  A value above
    [ULONG_MAX] is returned as [ULONG_MAX]; a minus sign negates the value in
    [unsigned long]. *)

Definition isspace (c : ascii) : bool :=
  let n := Z.of_N (N_of_ascii c) in
  (n =? 32) || ((9 <=? n) && (n <=? 13)).

Definition digit_of (c : ascii) : option Z :=
  let n := Z.of_N (N_of_ascii c) in
  if (48 <=? n) && (n <=? 57) then Some (n - 48) else None.

Fixpoint skip_spaces (s : string) : string :=
  match s with
  | String c r => if isspace c then skip_spaces r else s
  | EmptyString => s
  end.

Fixpoint scan_digits (acc : Z) (s : string) : Z * string :=
  match s with
  | String c r =>
      match digit_of c with
      | Some d => scan_digits (10 * acc + d) r
      | None => (acc, s)
      end
  | EmptyString => (acc, s)
  end.

Definition read_sign (s : string) : bool * string :=
  match s with
  | String c r =>
      if Ascii.eqb c "-" then (true, r)
      else if Ascii.eqb c "+" then (false, r)
      else (false, s)
  | EmptyString => (false, s)
  end.

Definition strtoul (nptr : string) : Z * string :=
  let '(negative, s) := read_sign (skip_spaces nptr) in
  match s with
  | String c _ =>
      match digit_of c with
      | Some _ =>
          let '(acc, endptr) := scan_digits 0 s in
          (if ULONG_MAX <? acc then ULONG_MAX
           else if negative then wrap64u (- acc) else acc,
           endptr)
      | None => (0, nptr)
      end
  | EmptyString => (0, nptr)
  end.

(** ** Counting the sectors of a list: [get_sector_count]

    The C function recurses on the text after a comma; that text is a proper
    suffix of the argument, so a fuel of one more than the length of the
    string is never exhausted ([get_sector_count_unfold] below).  The size
    of a range, [last_sector - first_sector + 1], is written with the
    wrap-around of its conversion to [size_t]; for the ranges of a
    well-formed list ([term_ok] below) it is the exact difference. *)

Fixpoint get_sector_count_rec (fuel : nat) (sector_list : string) : Z :=
  match fuel with
  | O => 0
  | S fuel =>
      let '(v, sector_end) := strtoul sector_list in
      let first_sector := wrap64s v in
      match sector_end with
      | String c rest =>
          if Ascii.eqb c "," then
            wrap64u (1 + get_sector_count_rec fuel rest)
          else if Ascii.eqb c "-" then
            let '(v', real_end) := strtoul rest in
            let last_sector := wrap64s v' in
            let sector_count := wrap64u (last_sector - first_sector + 1) in
            match real_end with
            | String c' rest' =>
                if Ascii.eqb c' "," then
                  wrap64u (sector_count + get_sector_count_rec fuel rest')
                else sector_count
            | EmptyString => sector_count
            end
          else 1
      | EmptyString => 1
      end
  end.

Definition get_sector_count (sector_list : string) : Z :=
  get_sector_count_rec (S (String.length sector_list)) sector_list.

(** ** The array under construction

    The block returned by [malloc] is a list of cells, each one empty until it
    is written.  [malloc_cells n] is the number of [off_t] cells of
    [malloc(n * sizeof(off_t))]: the product is taken in [size_t], a request
    above [PTRDIFF_MAX] bytes yields the null pointer, which has no cell, and
    any smaller request is granted (memory is not bounded otherwise).  The
    program never tests the pointer it gets. *)

Abbreviation block := (list (option Z)).

Definition malloc_cells (n : Z) : Z :=
  let bytes := wrap64u (n * sizeof_off_t) in
  if PTRDIFF_MAX <? bytes then 0 else bytes / sizeof_off_t.

Definition malloc_array (n : Z) : block :=
  replicate (Z.to_nat (malloc_cells n)) None.

(** A store into cell [idx] of the block; outside the block it is undefined. *)
Definition store (mem : block) (idx : Z) (v : Z) : option block :=
  if (0 <=? idx) && (idx <? Z.of_nat (length mem))
  then Some (<[Z.to_nat idx := Some v]> mem)
  else None.

(** [for (i = ...; i <= last_sector; i++) sector_array[i - first_sector] = i;]
    over the values [range] of [i].  After the store for [i = OFF_T_MAX] the
    increment [i++] overflows [off_t]: the test [i <= last_sector] cannot
    end the loop there. *)
Fixpoint store_range (mem : block) (sector_array first_sector : Z)
    (range : list Z) : option block :=
  match range with
  | [] => Some mem
  | i :: range =>
      mem ← store mem (sector_array + (i - first_sector)) i;
      if i =? OFF_T_MAX then None
      else store_range mem sector_array first_sector range
  end.

(** ** Filling the array: [add_bad_sectors]

    [sector_array] is the cell of the block the C pointer points to.  The
    loop of a range starts at [first_sector + 1], which overflows [off_t]
    when [first_sector] is [OFF_T_MAX]. *)

Fixpoint add_bad_sectors_rec (fuel : nat) (sector_list : string)
    (sector_array : Z) (mem : block) : option block :=
  match fuel with
  | O => None
  | S fuel =>
      let '(v, sector_end) := strtoul sector_list in
      let first_sector := wrap64s v in
      mem ← store mem sector_array first_sector;
      match sector_end with
      | String c rest =>
          if Ascii.eqb c "," then
            add_bad_sectors_rec fuel rest (sector_array + 1) mem
          else if Ascii.eqb c "-" then
            let '(v', real_end) := strtoul rest in
            let last_sector := wrap64s v' in
            mem ← (if first_sector =? OFF_T_MAX then None
                   else store_range mem sector_array first_sector
                          (seqZ (first_sector + 1)
                             (last_sector - first_sector)));
            match real_end with
            | String c' rest' =>
                if Ascii.eqb c' "," then
                  add_bad_sectors_rec fuel rest'
                    (sector_array + last_sector - first_sector + 1) mem
                else Some mem
            | EmptyString => Some mem
            end
          else Some mem
      | EmptyString => Some mem
      end
  end.

Definition add_bad_sectors (sector_list : string) (sector_array : Z)
    (mem : block) : option block :=
  add_bad_sectors_rec (S (String.length sector_list)) sector_list
    sector_array mem.

(** The contents of a block all of whose cells were written. *)
Fixpoint contents (mem : block) : option (list Z) :=
  match mem with
  | [] => Some []
  | c :: mem => v ← c; vs ← contents mem; Some (v :: vs)
  end.

(** ** The global variables of the program *)

Record globals : Type := Globals {
  filepath : string;
  bad_sector_count : Z;
  bad_sectors : list Z;
  reserve_sectors : Z;
  disk_size : Z
}.

Definition set_filepath (g : globals) (path : string) : globals :=
  {| filepath := path; bad_sector_count := bad_sector_count g;
     bad_sectors := bad_sectors g; reserve_sectors := reserve_sectors g;
     disk_size := disk_size g |}.

Definition set_bad_sectors (g : globals) (count : Z) (arr : list Z) : globals :=
  {| filepath := filepath g; bad_sector_count := count; bad_sectors := arr;
     reserve_sectors := reserve_sectors g; disk_size := disk_size g |}.

Definition set_reserve_sectors (g : globals) (n : Z) : globals :=
  {| filepath := filepath g; bad_sector_count := bad_sector_count g;
     bad_sectors := bad_sectors g; reserve_sectors := n;
     disk_size := disk_size g |}.

Definition set_disk_size (g : globals) (n : Z) : globals :=
  {| filepath := filepath g; bad_sector_count := bad_sector_count g;
     bad_sectors := bad_sectors g; reserve_sectors := reserve_sectors g;
     disk_size := n |}.

(** ** [build_bad_sector_list]

    The argument is [None] for the null pointer (no list on the command
    line). *)

Definition build_bad_sector_list (sector_list : option string) (g : globals)
    : option globals :=
  match sector_list with
  | None => Some g
  | Some sector_list =>
      let count := get_sector_count sector_list in
      mem ← add_bad_sectors sector_list 0 (malloc_array count);
      arr ← contents mem;
      Some (set_bad_sectors g count arr)
  end.

(** ** [init_callback]

    The part of the function that sets the fault state: the reserve count is
    read with [strtoul] (0 without the option) and the bad-sector list is
    built.  [path] is the name the function derives from the image path and
    stores in [filepath]; the derivation itself and the opening of the image
    are not modelled. *)

Definition init_callback (path : string)
    (reserve_arg sector_list : option string) (g : globals)
    : option globals :=
  let g := set_filepath g path in
  let g := set_reserve_sectors g
             match reserve_arg with
             | None => 0
             | Some arg => fst (strtoul arg)
             end in
  build_bad_sector_list sector_list g.

(** The static initialisers of the globals ([filepath] is null there; it is
    set by [init_callback] before any other callback runs). *)
Definition initial_globals : globals :=
  {| filepath := ""; bad_sector_count := 0; bad_sectors := [];
     reserve_sectors := 0; disk_size := 0 |}.

(** ** Searching the bad-sector array

    [for (i = 0; i < bad_sector_count; i++) if (bad_sectors[i] == sector)],
    the loop shared by [repair_bad_sector], [read_callback] and
    [write_callback].  [arr] is the array from cell [i] on; reading a cell
    past the end of the array is undefined. *)

Inductive search : Type :=
| Found (i : Z)
| NotFound
| OutOfBounds.

Fixpoint scan_bad_sectors (sector : Z) (arr : list Z) (i count : Z)
    {struct arr} : search :=
  if count <=? i then NotFound
  else
    match arr with
    | [] => OutOfBounds
    | x :: arr => if x =? sector then Found i
                  else scan_bad_sectors sector arr (i + 1) count
    end.

(** ** [repair_bad_sector]

    Returns the C return value (0 on success, -1 otherwise) and the new
    globals.  The two [memcpy] calls copy cells [0..i) and
    [i+1 .. bad_sector_count] of the old array (with [bad_sector_count]
    already decremented) into a fresh block. *)

Definition repair_bad_sector (sector : Z) (g : globals)
    : option (Z * globals) :=
  if 0 <? reserve_sectors g then
    match scan_bad_sectors sector (bad_sectors g) 0 (bad_sector_count g) with
    | Found i =>
        let count := wrap64u (bad_sector_count g - 1) in
        let old_bad_sectors := bad_sectors g in
        if (count + 1 <=? Z.of_nat (length old_bad_sectors))
           && (count <=? malloc_cells count)
        then
          let arr := take (Z.to_nat i) old_bad_sectors
                     ++ take (Z.to_nat (count - i))
                          (drop (Z.to_nat (i + 1)) old_bad_sectors) in
          let g := set_bad_sectors g count arr in
          Some (0, set_reserve_sectors g (wrap64u (reserve_sectors g - 1)))
        else None
    | NotFound => Some (-1, g)
    | OutOfBounds => None
    end
  else Some (-1, g).

(** ** [get_disk_size]

    [st_size] is the size of the image file that [stat] reports when the
    cached [disk_size] is still 0. *)

Definition get_disk_size (st_size : Z) (g : globals) : Z * globals :=
  if disk_size g =? 0
  then (wrap64u st_size, set_disk_size g (wrap64u st_size))
  else (disk_size g, g).

(** ** The replies of the I/O callbacks *)

Inductive reply : Type :=
| Return (v : Z)                 (* [return v;] without touching the image *)
| Fault_EIO                      (* [errno = EIO; return -1;] *)
| Backing_pread (size offset : Z)   (* [return pread(fd, buf, size, offset)] *)
| Backing_pwrite (size offset : Z). (* [return pwrite(fd, buf, size, offset)] *)

(** The request size after the truncation at the end of the disk, and the
    two sector bounds, as both callbacks compute them ([offset] is an [off_t],
    [size] and [len] are [size_t]: the arithmetic is unsigned). *)

Definition truncate_size (len size offset : Z) : Z :=
  if len <? wrap64u (offset + size) then wrap64u (len - offset) else size.

Definition first_sector_of (offset : Z) : Z :=
  wrap64s (wrap64u offset / sector_size).

Definition last_sector_of (size offset : Z) : Z :=
  wrap64s (wrap64u (offset + size + sector_size - 1) / sector_size).

(** The values of [sector] in
    [for (sector = first_sector; sector <= last_sector; sector++)]. *)
Definition sector_loop (first_sector last_sector : Z) : list Z :=
  seqZ first_sector (last_sector - first_sector + 1).

(** ** [read_callback] *)

(** The two nested loops: [Some true] when a sector of the range is in the
    array. *)
Fixpoint read_scan (sectors : list Z) (g : globals) : option bool :=
  match sectors with
  | [] => Some false
  | sector :: sectors =>
      match scan_bad_sectors sector (bad_sectors g) 0 (bad_sector_count g) with
      | Found _ => Some true
      | NotFound => read_scan sectors g
      | OutOfBounds => None
      end
  end.

Definition read_callback (st_size : Z) (path : string) (size offset : Z)
    (g : globals) : option (reply * globals) :=
  if String.eqb path (filepath g) then
    let '(len, g) := get_disk_size st_size g in
    if len <=? wrap64u offset then Some (Return 0, g)
    else
      let size := truncate_size len size offset in
      let first_sector := first_sector_of offset in
      let last_sector := last_sector_of size offset in
      bad ← read_scan (sector_loop first_sector last_sector) g;
      if bad : bool then Some (Fault_EIO, g)
      else Some (Backing_pread size offset, g)
  else Some (Return (- ENOENT), g).

(** ** [write_callback] *)

(** The two nested loops: the first cell holding [sector] triggers
    [repair_bad_sector]; success leaves the inner loop, failure leaves the
    function.  The boolean is [true] when the function was left. *)
Fixpoint write_scan (sectors : list Z) (g : globals)
    : option (bool * globals) :=
  match sectors with
  | [] => Some (false, g)
  | sector :: sectors =>
      match scan_bad_sectors sector (bad_sectors g) 0 (bad_sector_count g) with
      | Found _ =>
          '(ret, g) ← repair_bad_sector sector g;
          if ret =? 0 then write_scan sectors g else Some (true, g)
      | NotFound => write_scan sectors g
      | OutOfBounds => None
      end
  end.

Definition write_callback (st_size : Z) (path : string) (size offset : Z)
    (g : globals) : option (reply * globals) :=
  if String.eqb path (filepath g) then
    let '(len, g) := get_disk_size st_size g in
    if len <=? wrap64u offset then Some (Return 0, g)
    else
      let size := truncate_size len size offset in
      let first_sector := first_sector_of offset in
      let last_sector := last_sector_of size offset in
      '(aborted, g) ← write_scan (sector_loop first_sector last_sector) g;
      if aborted : bool then Some (Fault_EIO, g)
      else Some (Backing_pwrite size offset, g)
  else Some (Return (- ENOENT), g).

(** ** Sessions

    A session is a sequence of requests served from some globals.  The
    counted variants below return, next to the result of the code, the number
    of calls of [repair_bad_sector] that returned 0; [write_scan_erase] and
    [serve_erase] show that dropping the counter gives the functions above. *)

Fixpoint write_scan_counted (sectors : list Z) (g : globals)
    : option (nat * (bool * globals)) :=
  match sectors with
  | [] => Some (O, (false, g))
  | sector :: sectors =>
      match scan_bad_sectors sector (bad_sectors g) 0 (bad_sector_count g) with
      | Found _ =>
          '(ret, g) ← repair_bad_sector sector g;
          if ret =? 0 then
            '(n, r) ← write_scan_counted sectors g; Some (S n, r)
          else Some (O, (true, g))
      | NotFound => write_scan_counted sectors g
      | OutOfBounds => None
      end
  end.

Inductive request : Type :=
| Read (st_size : Z) (path : string) (size offset : Z)
| Write (st_size : Z) (path : string) (size offset : Z)
| Repair (sector : Z).

Inductive answer : Type :=
| Replied (r : reply)
| Repaired (ret : Z).

Definition serve (rq : request) (g : globals) : option (answer * globals) :=
  match rq with
  | Read st_size path size offset =>
      '(r, g) ← read_callback st_size path size offset g; Some (Replied r, g)
  | Write st_size path size offset =>
      '(r, g) ← write_callback st_size path size offset g; Some (Replied r, g)
  | Repair sector =>
      '(ret, g) ← repair_bad_sector sector g; Some (Repaired ret, g)
  end.

Fixpoint session (rqs : list request) (g : globals) : option globals :=
  match rqs with
  | [] => Some g
  | rq :: rqs => '(_, g) ← serve rq g; session rqs g
  end.

Definition serve_counted (rq : request) (g : globals)
    : option (nat * globals) :=
  match rq with
  | Read st_size path size offset =>
      '(_, g) ← read_callback st_size path size offset g; Some (O, g)
  | Write st_size path size offset =>
      if String.eqb path (filepath g) then
        let '(len, g) := get_disk_size st_size g in
        if len <=? wrap64u offset then Some (O, g)
        else
          let size := truncate_size len size offset in
          '(n, (_, g)) ← write_scan_counted
             (sector_loop (first_sector_of offset)
                (last_sector_of size offset)) g;
          Some (n, g)
      else Some (O, g)
  | Repair sector =>
      '(ret, g) ← repair_bad_sector sector g;
      Some (if ret =? 0 then 1%nat else O, g)
  end.

Fixpoint session_counted (rqs : list request) (g : globals)
    : option (nat * globals) :=
  match rqs with
  | [] => Some (O, g)
  | rq :: rqs =>
      '(n, g) ← serve_counted rq g;
      '(m, g) ← session_counted rqs g;
      Some ((n + m)%nat, g)
  end.

(** ** Well-formed globals

    [bad_sector_count] is the number of cells of [bad_sectors], an array of
    that many cells can be allocated, and the reserve count and the cached
    disk size are [size_t] values. *)

Definition wf (g : globals) : Prop :=
  bad_sector_count g = Z.of_nat (length (bad_sectors g))
  ∧ bad_sector_count g * sizeof_off_t <= PTRDIFF_MAX
  ∧ 0 <= reserve_sectors g < 2 ^ 64
  ∧ 0 <= disk_size g < 2 ^ 64.

(** ** The grammar of well-formed sector lists

    A numeral is a non-empty list of decimal digits whose value is an
    [off_t]; a term is a numeral or two numerals around a dash, the second
    one not smaller than the first and smaller than [OFF_T_MAX] (the loop
    counter of [add_bad_sectors] must be able to pass it); a list is one or
    more terms separated by commas. *)

Definition numeral : Type := list Z.

Definition digit_char (d : Z) : ascii := ascii_of_N (Z.to_N (48 + d)).

Fixpoint numeral_string (ds : numeral) (rest : string) : string :=
  match ds with
  | [] => rest
  | d :: ds => String (digit_char d) (numeral_string ds rest)
  end.

Definition numeral_value (ds : numeral) : Z :=
  foldl (λ acc d, 10 * acc + d) 0 ds.

Definition numeral_ok (ds : numeral) : Prop :=
  ds ≠ [] ∧ Forall (λ d, 0 <= d <= 9) ds ∧ numeral_value ds < 2 ^ 63.

Inductive term : Type :=
| Single (n : numeral)
| Range (n m : numeral).

Definition term_string (t : term) (rest : string) : string :=
  match t with
  | Single n => numeral_string n rest
  | Range n m => numeral_string n (String "-" (numeral_string m rest))
  end.

Fixpoint spec_string (t : term) (ts : list term) : string :=
  match ts with
  | [] => term_string t ""
  | t' :: ts => term_string t (String "," (spec_string t' ts))
  end.

(** The bounds of a range are in order, and the upper one is below
    [OFF_T_MAX]: the loop of [add_bad_sectors] ends with its counter at
    [last_sector + 1]. *)
Definition term_ok (t : term) : Prop :=
  match t with
  | Single n => numeral_ok n
  | Range n m =>
      numeral_ok n ∧ numeral_ok m
      ∧ numeral_value n <= numeral_value m < OFF_T_MAX
  end.

(** The sectors a term denotes: [N] or the inclusive range [N..M]. *)
Definition term_sectors (t : term) : list Z :=
  match t with
  | Single n => [numeral_value n]
  | Range n m => seqZ (numeral_value n) (numeral_value m - numeral_value n + 1)
  end.

Definition spec_sectors (ts : list term) : list Z :=
  concat (term_sectors <$> ts).

(** ** Auxiliary definitions of the proofs *)

(** The globals after the repair of the cell [k]. *)
Definition repaired (k : nat) (g : globals) : globals :=
  {| filepath := filepath g;
     bad_sector_count := bad_sector_count g - 1;
     bad_sectors := delete k (bad_sectors g);
     reserve_sectors := reserve_sectors g - 1;
     disk_size := disk_size g |}.

(** What one scan does to the fault state: [n] cells are gone and [n]
    reserve sectors are used. *)
Definition shrinks_by (n : nat) (g g' : globals) : Prop :=
  wf g'
  ∧ bad_sector_count g' = bad_sector_count g - Z.of_nat n
  ∧ reserve_sectors g' = reserve_sectors g - Z.of_nat n
  ∧ bad_sectors g' `sublist_of` bad_sectors g
  ∧ filepath g' = filepath g.

(** The text after a numeral: the end of the string or a character that is
    not a digit. *)
Definition stops (rest : string) : Prop :=
  match rest with
  | String c _ => digit_of c = None
  | EmptyString => True
  end.

(** The number of cells of the array that hold a sector. *)
Definition occurrences (sector : Z) (arr : list Z) : nat :=
  length (filter (λ x, x = sector) arr).

(** ** Example stores *)

(** A store used in the examples: sectors 10 and 11 are bad, one reserve
    sector, the image is 1000000 bytes long. *)
Definition example_globals : globals :=
  {| filepath := "/disk.img"; bad_sector_count := 2; bad_sectors := [10; 11];
     reserve_sectors := 1; disk_size := 1000000 |}.

(** The same store once sector 10 is repaired. *)
Definition example_repaired : globals :=
  {| filepath := "/disk.img"; bad_sector_count := 1; bad_sectors := [11];
     reserve_sectors := 0; disk_size := 1000000 |}.

(** Globals with two reserve sectors and no bad sector yet. *)
Definition example_reserve_2 : globals :=
  {| filepath := "/disk.img"; bad_sector_count := 0; bad_sectors := [];
     reserve_sectors := 2; disk_size := 1000000 |}.

(** ** The path part of [init_callback]

    [filepath] first points at the last character of the image path and is
    moved back to the last [/]; without a [/] a buffer is allocated and
    filled with [/] and the image path.  A C string is the characters up to
    the terminating zero; [char_at s i] is the byte at offset [i] of the
    string, the terminator included. *)

Definition char_at (s : string) (i : nat) : ascii :=
  match String.get i s with
  | Some c => c
  | None => Ascii.zero
  end.

(** The string that starts at offset [i] of [s]. *)
Fixpoint string_from (s : string) (i : nat) : string :=
  match i, s with
  | O, _ => s
  | S i, String _ r => string_from r i
  | S _, EmptyString => EmptyString
  end.

(** The loop that moves [filepath] back while it is after the start of
    [disk_image] and does not point at a slash; [pos] is the offset of
    [filepath] in [disk_image]. *)
Fixpoint scan_back (disk_image : string) (pos : nat) : nat :=
  match pos with
  | O => O
  | S p => if Ascii.eqb (char_at disk_image pos) "/" then pos
           else scan_back disk_image p
  end.

(** A block of bytes returned by [malloc]. *)
Abbreviation bytes := (list (option ascii)).

Definition malloc_bytes (n : Z) : bytes :=
  if PTRDIFF_MAX <? wrap64u n then []
  else replicate (Z.to_nat (wrap64u n)) None.

Definition store_byte (mem : bytes) (idx : Z) (c : ascii) : option bytes :=
  if (0 <=? idx) && (idx <? Z.of_nat (length mem))
  then Some (<[Z.to_nat idx := Some c]> mem)
  else None.

(** [strcpy(block + dst, src)]: the characters of [src], then the
    terminator. *)
Fixpoint strcpy (mem : bytes) (dst : Z) (src : string) : option bytes :=
  match src with
  | EmptyString => store_byte mem dst Ascii.zero
  | String c r => mem ← store_byte mem dst c; strcpy mem (dst + 1) r
  end.

(** The C string held at the start of a block. *)
Fixpoint c_string (mem : bytes) : option string :=
  match mem with
  | Some c :: mem =>
      if Ascii.eqb c Ascii.zero then Some EmptyString
      else r ← c_string mem; Some (String c r)
  | _ => None
  end.

(** The values of [filepath] and [filename] after the first part of
    [init_callback]. *)
Definition init_paths (disk_image : string) : option (string * string) :=
  match String.length disk_image with
  | O => None
  | S last =>
      let pos := scan_back disk_image last in
      if Ascii.eqb (char_at disk_image pos) "/" then
        Some (string_from disk_image pos, string_from disk_image (S pos))
      else
        let mem := malloc_bytes (Z.of_nat (String.length disk_image) + 1) in
        mem ← strcpy mem 0 "/";
        mem ← strcpy mem 1 disk_image;
        filepath ← c_string mem;
        Some (filepath, disk_image)
  end.

(** ** [getattr_callback] and [readdir_callback]

    [file_size] is the size [stat] reports for the image; [names] are the
    entries handed to [filler]. *)

Record stat : Type := Stat {
  st_mode : Z;
  st_nlink : Z;
  st_size : Z
}.

Definition S_IFDIR : Z := 16384.
Definition S_IFREG : Z := 32768.

Definition getattr_callback (file_size : Z) (path : string) (g : globals)
    : Z * stat :=
  let stbuf := {| st_mode := 0; st_nlink := 0; st_size := 0 |} in
  if String.eqb path "/" then
    (0, {| st_mode := Z.lor S_IFDIR 493; st_nlink := 2;
           st_size := st_size stbuf |})
  else if String.eqb path (filepath g) then
    (0, {| st_mode := Z.lor S_IFREG 511; st_nlink := 1;
           st_size := file_size |})
  else (- ENOENT, stbuf).

Definition readdir_callback (filename : string) : Z * list string :=
  (0, ["."%string; ".."%string; filename]).

(** ** A well-formed list followed by more text *)

Fixpoint spec_string_then (t : term) (ts : list term) (rest : string)
    : string :=
  match ts with
  | [] => term_string t rest
  | t' :: ts => term_string t (String "," (spec_string_then t' ts rest))
  end.

(** The text after the last term that ends the list: a character that is
    neither a digit, a comma nor a dash. *)
Definition ends_list (rest : string) : Prop :=
  match rest with
  | String c _ =>
      digit_of c = None ∧ Ascii.eqb c "," = false ∧ Ascii.eqb c "-" = false
  | EmptyString => True
  end.

(** The sectors of a scan that are in the bad-sector array. *)
Definition bad_in (sectors : list Z) (g : globals) : list Z :=
  filter (λ s, s ∈ bad_sectors g) sectors.

(** * Properties *)

(** ** Machine integers *)

Lemma wrap64u_small z : 0 <= z < 2 ^ 64 → wrap64u z = z.
Proof. intros H. unfold wrap64u. apply Z.mod_small. exact H. Qed.

Lemma wrap64s_small z : - 2 ^ 63 <= z < 2 ^ 63 → wrap64s z = z.
Proof. intros H. unfold wrap64s. rewrite Z.mod_small; lia. Qed.

Lemma wrap64u_range z : 0 <= wrap64u z < 2 ^ 64.
Proof. unfold wrap64u. apply Z.mod_pos_bound. lia. Qed.

Lemma malloc_cells_small n :
  0 <= n → n * sizeof_off_t <= PTRDIFF_MAX → malloc_cells n = n.
Proof.
  unfold malloc_cells, sizeof_off_t, PTRDIFF_MAX. intros H0 H.
  rewrite wrap64u_small by lia.
  destruct (Z.ltb_spec (2 ^ 63 - 1) (n * 8)); [lia|].
  apply Z.div_mul. lia.
Qed.

(** ** The search loop *)

Lemma scan_bad_sectors_find sector arr i count :
  count = i + Z.of_nat (length arr) →
  scan_bad_sectors sector arr i count =
    match list_find (λ x, x = sector) arr with
    | Some (k, _) => Found (i + Z.of_nat k)
    | None => NotFound
    end.
Proof.
  revert i count. induction arr as [|x arr IH]; intros i count ->;
    cbn [scan_bad_sectors list_find length].
  - destruct (Z.leb_spec (i + Z.of_nat 0) i); [done|lia].
  - destruct (Z.leb_spec (i + Z.of_nat (S (length arr))) i); [lia|].
    destruct (Z.eqb_spec x sector) as [->|Hne].
    + rewrite decide_True by done. cbn. f_equal. lia.
    + rewrite decide_False by done. rewrite IH by lia.
      destruct (list_find _ arr) as [[k y]|]; simpl; [f_equal; lia|done].
Qed.

Lemma scan_bad_sectors_wf sector g :
  wf g →
  scan_bad_sectors sector (bad_sectors g) 0 (bad_sector_count g) =
    match list_find (λ x, x = sector) (bad_sectors g) with
    | Some (k, _) => Found (Z.of_nat k)
    | None => NotFound
    end.
Proof.
  intros (Hc & _). rewrite scan_bad_sectors_find by lia.
  destruct (list_find _ _) as [[k y]|]; [f_equal; lia|done].
Qed.

Lemma list_find_eq_elem (sector : Z) (arr : list Z) :
  sector ∈ arr → ∃ k, list_find (λ x, x = sector) arr = Some (k, sector).
Proof.
  intros Hin.
  destruct (list_find (λ x, x = sector) arr) as [[k y]|] eqn:E.
  - exists k. apply list_find_Some in E. destruct E as (_ & Hy & _).
    simpl in Hy. by subst y.
  - exfalso. apply list_find_None in E.
    rewrite Forall_forall in E. exact (E sector Hin eq_refl).
Qed.

Lemma list_find_eq_None (sector : Z) (arr : list Z) :
  sector ∉ arr → list_find (λ x, x = sector) arr = None.
Proof.
  intros Hnin. apply list_find_None. rewrite Forall_forall.
  by intros x Hx ->.
Qed.

(** ** [repair_bad_sector] on well-formed globals *)

Lemma repair_bad_sector_find sector g :
  wf g →
  repair_bad_sector sector g =
    if 0 <? reserve_sectors g then
      match list_find (λ x, x = sector) (bad_sectors g) with
      | Some (k, _) => Some (0, repaired k g)
      | None => Some (-1, g)
      end
    else Some (-1, g).
Proof.
  intros Hwf. unfold repair_bad_sector.
  destruct (Z.ltb_spec 0 (reserve_sectors g)) as [Hr|]; [|done].
  rewrite scan_bad_sectors_wf by done.
  destruct Hwf as (Hc & Hm & Hrs & _).
  destruct (list_find _ _) as [[k y]|] eqn:E; [|done].
  apply list_find_Some in E. destruct E as (Hk & _ & _).
  apply lookup_lt_Some in Hk.
  unfold sizeof_off_t, PTRDIFF_MAX in *.
  rewrite (wrap64u_small (bad_sector_count g - 1)) by lia.
  rewrite malloc_cells_small by (unfold sizeof_off_t, PTRDIFF_MAX; lia).
  rewrite !(proj2 (Z.leb_le _ _)) by lia.
  simpl. rewrite wrap64u_small by lia.
  unfold repaired, set_reserve_sectors, set_bad_sectors; simpl.
  do 3 f_equal.
  rewrite Nat2Z.id, delete_take_drop. f_equal.
  replace (Z.to_nat (Z.of_nat k + 1)) with (S k) by lia.
  apply take_ge. rewrite length_drop. lia.
Qed.

Lemma repaired_wf k g :
  wf g → (k < length (bad_sectors g))%nat → 0 < reserve_sectors g →
  wf (repaired k g).
Proof.
  intros (Hc & Hm & Hr & Hd) Hk Hpos. unfold wf, repaired; simpl.
  rewrite length_delete by (by apply lookup_lt_is_Some).
  unfold sizeof_off_t, PTRDIFF_MAX in *. lia.
Qed.

Lemma repair_bad_sector_fails sector g :
  wf g → sector ∉ bad_sectors g ∨ reserve_sectors g = 0 →
  repair_bad_sector sector g = Some (-1, g).
Proof.
  intros Hwf H. rewrite repair_bad_sector_find by done.
  destruct H as [H| ->]; [|done].
  rewrite list_find_eq_None by done. by destruct (0 <? _).
Qed.

Lemma repair_bad_sector_succeeds sector g :
  wf g → sector ∈ bad_sectors g → 0 < reserve_sectors g →
  ∃ k, list_find (λ x, x = sector) (bad_sectors g) = Some (k, sector)
       ∧ repair_bad_sector sector g = Some (0, repaired k g)
       ∧ wf (repaired k g).
Proof.
  intros Hwf Hin Hr. rewrite repair_bad_sector_find by done.
  destruct (list_find_eq_elem _ _ Hin) as [k Hk]. exists k.
  rewrite Hk, (proj2 (Z.ltb_lt _ _)) by done. split_and!; [done..|].
  apply repaired_wf; [done| |done].
  apply list_find_Some in Hk. destruct Hk as (Hk & _).
  by apply lookup_lt_Some in Hk.
Qed.

(** ** [get_disk_size] leaves the fault state alone *)

Lemma get_disk_size_fault_state st_size g :
  let g' := snd (get_disk_size st_size g) in
  filepath g' = filepath g ∧ bad_sector_count g' = bad_sector_count g
  ∧ bad_sectors g' = bad_sectors g ∧ reserve_sectors g' = reserve_sectors g.
Proof. unfold get_disk_size. by destruct (disk_size g =? 0). Qed.

Lemma get_disk_size_range st_size g :
  wf g → 0 <= fst (get_disk_size st_size g) < 2 ^ 64.
Proof.
  intros (_ & _ & _ & Hd). unfold get_disk_size.
  destruct (disk_size g =? 0); simpl; [apply wrap64u_range|done].
Qed.

Lemma get_disk_size_wf st_size g : wf g → wf (snd (get_disk_size st_size g)).
Proof.
  intros Hwf. pose proof (get_disk_size_range st_size g Hwf) as Hlen.
  destruct Hwf as (Hc & Hm & Hr & Hd). unfold wf.
  destruct (get_disk_size_fault_state st_size g) as (_ & -> & -> & ->).
  do 3 (split; [done|]).
  revert Hlen. unfold get_disk_size. by destruct (disk_size g =? 0).
Qed.

(** ** The scan of [read_callback] *)

Lemma read_scan_wf sectors g :
  wf g →
  ∃ b, read_scan sectors g = Some b
       ∧ (b = true ↔ ∃ s, s ∈ sectors ∧ s ∈ bad_sectors g).
Proof.
  intros Hwf. induction sectors as [|s sectors (b & IH & Hb)]; simpl.
  - exists false. split; [done|]. split; [done|].
    intros (s & Hs & _). by apply elem_of_nil in Hs.
  - rewrite scan_bad_sectors_wf by done.
    destruct (decide (s ∈ bad_sectors g)) as [Hin|Hnin].
    + destruct (list_find_eq_elem _ _ Hin) as [k ->].
      exists true. split; [done|]. split; [|done].
      intros _. exists s. split; [left|done].
    + rewrite list_find_eq_None by done. exists b. split; [done|].
      rewrite Hb. split.
      * intros (s' & Hs' & Hbad). exists s'. split; [by right|done].
      * intros (s' & Hs' & Hbad). apply elem_of_cons in Hs' as [->|Hs'];
          [done|]. by exists s'.
Qed.

(** ** The scan of [write_callback] *)

Lemma write_scan_erase sectors g :
  write_scan sectors g = snd <$> write_scan_counted sectors g.
Proof.
  revert g. induction sectors as [|s sectors IH]; intros g; simpl; [done|].
  destruct (scan_bad_sectors _ _ _ _); [|by apply IH|done].
  destruct (repair_bad_sector s g) as [[ret g']|]; simpl; [|done].
  destruct (ret =? 0); [|done].
  rewrite IH. by destruct (write_scan_counted sectors g') as [[n r]|].
Qed.

Lemma shrinks_by_refl g : wf g → shrinks_by 0 g g.
Proof. intros Hwf. unfold shrinks_by. split_and!; [done|lia|lia|done|done]. Qed.

Lemma shrinks_by_trans n m g1 g2 g3 :
  shrinks_by n g1 g2 → shrinks_by m g2 g3 → shrinks_by (n + m) g1 g3.
Proof.
  intros (_ & Hc & Hr & Hs & Hf) (Hwf & Hc' & Hr' & Hs' & Hf').
  unfold shrinks_by. split_and!; [done|lia|lia| |congruence].
  by etrans.
Qed.

Lemma shrinks_by_repaired k g :
  wf g → (k < length (bad_sectors g))%nat → 0 < reserve_sectors g →
  shrinks_by 1 g (repaired k g).
Proof.
  intros Hwf Hk Hr. unfold shrinks_by.
  split_and!; [by apply repaired_wf|simpl; lia|simpl; lia| |done].
  apply sublist_delete.
Qed.

Lemma shrinks_by_get_disk_size st_size g :
  wf g → shrinks_by 0 g (snd (get_disk_size st_size g)).
Proof.
  intros Hwf. unfold shrinks_by.
  split; [by apply get_disk_size_wf|].
  destruct (get_disk_size_fault_state st_size g) as (-> & -> & -> & ->).
  split_and!; [lia|lia|done|done].
Qed.

Lemma write_scan_counted_wf sectors g :
  wf g →
  ∃ n aborted g',
    write_scan_counted sectors g = Some (n, (aborted, g'))
    ∧ shrinks_by n g g'.
Proof.
  revert g. induction sectors as [|s sectors IH]; intros g Hwf; simpl.
  - exists O, false, g. split; [done|]. by apply shrinks_by_refl.
  - rewrite scan_bad_sectors_wf by done.
    destruct (decide (s ∈ bad_sectors g)) as [Hin|Hnin].
    + destruct (list_find_eq_elem _ _ Hin) as [k Hk]. rewrite Hk.
      destruct (Z.lt_ge_cases 0 (reserve_sectors g)) as [Hr|Hr].
      * destruct (repair_bad_sector_succeeds s g Hwf Hin Hr)
          as (k' & Hk' & -> & Hwf').
        simpl.
        destruct (IH _ Hwf') as (n & aborted & g' & -> & Hsh). simpl.
        exists (S n), aborted, g'. split; [done|].
        apply (shrinks_by_trans 1 n _ (repaired k' g)); [|done].
        apply shrinks_by_repaired; [done| |done].
        apply list_find_Some in Hk'. destruct Hk' as (Hk' & _).
        by apply lookup_lt_Some in Hk'.
      * rewrite repair_bad_sector_fails; [|done|right; destruct Hwf; lia].
        simpl. exists O, true, g. split; [done|]. by apply shrinks_by_refl.
    + rewrite list_find_eq_None by done. by apply IH.
Qed.

Lemma write_scan_app pre post g :
  write_scan (pre ++ post) g =
    '(aborted, g') ← write_scan pre g;
    if aborted : bool then Some (true, g') else write_scan post g'.
Proof.
  revert g. induction pre as [|s pre IH]; intros g; simpl; [done|].
  destruct (scan_bad_sectors _ _ _ _); [|by apply IH|done].
  destruct (repair_bad_sector s g) as [[ret g']|]; simpl; [|done].
  destruct (ret =? 0); [by apply IH|done].
Qed.

Lemma write_scan_clean sectors g :
  wf g → (∀ s, s ∈ sectors → s ∉ bad_sectors g) →
  write_scan sectors g = Some (false, g).
Proof.
  intros Hwf. induction sectors as [|s sectors IH]; intros Hclean; simpl;
    [done|].
  rewrite scan_bad_sectors_wf by done.
  rewrite list_find_eq_None by (apply Hclean; left).
  apply IH. intros s' Hs'. apply Hclean. by right.
Qed.

Lemma write_scan_no_reserve sectors g :
  wf g → reserve_sectors g = 0 →
  ∃ aborted, write_scan sectors g = Some (aborted, g)
    ∧ (aborted = true ↔ ∃ s, s ∈ sectors ∧ s ∈ bad_sectors g).
Proof.
  intros Hwf Hr. induction sectors as [|s sectors (b & IH & Hb)]; simpl.
  - exists false. split; [done|]. split; [done|].
    intros (s & Hs & _). by apply elem_of_nil in Hs.
  - rewrite scan_bad_sectors_wf by done.
    destruct (decide (s ∈ bad_sectors g)) as [Hin|Hnin].
    + destruct (list_find_eq_elem _ _ Hin) as [k ->].
      rewrite repair_bad_sector_fails by auto. simpl.
      exists true. split; [done|]. split; [|done].
      intros _. exists s. split; [left|done].
    + rewrite list_find_eq_None by done. exists b. split; [done|].
      rewrite Hb. split.
      * intros (s' & Hs' & Hbad). exists s'. split; [by right|done].
      * intros (s' & Hs' & Hbad). apply elem_of_cons in Hs' as [->|Hs'];
          [done|]. by exists s'.
Qed.

(** ** [strtoul] returns a suffix of its argument *)

Lemma skip_spaces_length s :
  (String.length (skip_spaces s) <= String.length s)%nat.
Proof.
  induction s as [|c s IH]; simpl; [lia|].
  destruct (isspace c); simpl; lia.
Qed.

Lemma read_sign_length s :
  (String.length (snd (read_sign s)) <= String.length s)%nat.
Proof.
  destruct s as [|c s]; simpl; [lia|].
  destruct (Ascii.eqb c "-"); [simpl; lia|].
  destruct (Ascii.eqb c "+"); simpl; lia.
Qed.

Lemma scan_digits_length acc s :
  (String.length (snd (scan_digits acc s)) <= String.length s)%nat.
Proof.
  revert acc. induction s as [|c s IH]; intros acc; simpl; [lia|].
  destruct (digit_of c); simpl; [|lia]. specialize (IH (10 * acc + z)). lia.
Qed.

Lemma strtoul_length s :
  (String.length (snd (strtoul s)) <= String.length s)%nat.
Proof.
  unfold strtoul.
  pose proof (skip_spaces_length s) as H1.
  pose proof (read_sign_length (skip_spaces s)) as H2.
  destruct (read_sign (skip_spaces s)) as [negative s']. simpl in H2.
  destruct s' as [|c s'']; [simpl; lia|].
  destruct (digit_of c); [|simpl; lia].
  pose proof (scan_digits_length 0 (String c s'')) as H3.
  destruct (scan_digits 0 (String c s'')) as [acc endptr]. simpl in *. lia.
Qed.

(** ** The fuel of the two recursive functions is never exhausted *)

Lemma get_sector_count_rec_fuel fuel fuel' s :
  (String.length s < fuel)%nat → (String.length s < fuel')%nat →
  get_sector_count_rec fuel s = get_sector_count_rec fuel' s.
Proof.
  revert fuel' s. induction fuel as [|fuel IH]; intros fuel' s H H'; [lia|].
  destruct fuel' as [|fuel']; [lia|]. simpl.
  pose proof (strtoul_length s) as Hs.
  destruct (strtoul s) as [v sector_end]. simpl in Hs.
  destruct sector_end as [|c rest]; [done|]. simpl in Hs.
  destruct (Ascii.eqb c ","); [f_equal; f_equal; apply IH; lia|].
  destruct (Ascii.eqb c "-"); [|done].
  pose proof (strtoul_length rest) as Hr.
  destruct (strtoul rest) as [v' real_end]. simpl in Hr.
  destruct real_end as [|c' rest']; [done|]. simpl in Hr.
  destruct (Ascii.eqb c' ","); [|done]. f_equal; f_equal; apply IH; lia.
Qed.

Lemma get_sector_count_unfold s :
  get_sector_count s =
    let '(v, sector_end) := strtoul s in
    let first_sector := wrap64s v in
    match sector_end with
    | String c rest =>
        if Ascii.eqb c "," then wrap64u (1 + get_sector_count rest)
        else if Ascii.eqb c "-" then
          let '(v', real_end) := strtoul rest in
          let last_sector := wrap64s v' in
          let sector_count := wrap64u (last_sector - first_sector + 1) in
          match real_end with
          | String c' rest' =>
              if Ascii.eqb c' ","
              then wrap64u (sector_count + get_sector_count rest')
              else sector_count
          | EmptyString => sector_count
          end
        else 1
    | EmptyString => 1
    end.
Proof.
  unfold get_sector_count at 1. simpl.
  pose proof (strtoul_length s) as Hs.
  destruct (strtoul s) as [v sector_end]. simpl in Hs.
  destruct sector_end as [|c rest]; [done|]. simpl in Hs.
  destruct (Ascii.eqb c ",").
  { unfold get_sector_count. do 2 f_equal.
    apply get_sector_count_rec_fuel; lia. }
  destruct (Ascii.eqb c "-"); [|done].
  pose proof (strtoul_length rest) as Hr.
  destruct (strtoul rest) as [v' real_end]. simpl in Hr.
  destruct real_end as [|c' rest']; [done|]. simpl in Hr.
  destruct (Ascii.eqb c' ","); [|done].
  unfold get_sector_count. do 2 f_equal.
  apply get_sector_count_rec_fuel; lia.
Qed.

Lemma add_bad_sectors_rec_fuel fuel fuel' s sector_array mem :
  (String.length s < fuel)%nat → (String.length s < fuel')%nat →
  add_bad_sectors_rec fuel s sector_array mem
  = add_bad_sectors_rec fuel' s sector_array mem.
Proof.
  revert fuel' s sector_array mem.
  induction fuel as [|fuel IH]; intros fuel' s sector_array mem H H'; [lia|].
  destruct fuel' as [|fuel']; [lia|]. simpl.
  pose proof (strtoul_length s) as Hs.
  destruct (strtoul s) as [v sector_end]. simpl in Hs.
  destruct (store mem sector_array (wrap64s v)) as [mem1|]; simpl; [|done].
  destruct sector_end as [|c rest]; [done|]. simpl in Hs.
  destruct (Ascii.eqb c ","); [apply IH; lia|].
  destruct (Ascii.eqb c "-"); [|done].
  pose proof (strtoul_length rest) as Hr.
  destruct (strtoul rest) as [v' real_end]. simpl in Hr.
  destruct (wrap64s v =? OFF_T_MAX); [done|].
  destruct (store_range mem1 _ _ _) as [mem2|]; simpl; [|done].
  destruct real_end as [|c' rest']; [done|]. simpl in Hr.
  destruct (Ascii.eqb c' ","); [|done]. apply IH; lia.
Qed.

Lemma add_bad_sectors_unfold s sector_array mem :
  add_bad_sectors s sector_array mem =
    let '(v, sector_end) := strtoul s in
    let first_sector := wrap64s v in
    mem ← store mem sector_array first_sector;
    match sector_end with
    | String c rest =>
        if Ascii.eqb c "," then add_bad_sectors rest (sector_array + 1) mem
        else if Ascii.eqb c "-" then
          let '(v', real_end) := strtoul rest in
          let last_sector := wrap64s v' in
          mem ← (if first_sector =? OFF_T_MAX then None
                 else store_range mem sector_array first_sector
                        (seqZ (first_sector + 1)
                           (last_sector - first_sector)));
          match real_end with
          | String c' rest' =>
              if Ascii.eqb c' "," then
                add_bad_sectors rest'
                  (sector_array + last_sector - first_sector + 1) mem
              else Some mem
          | EmptyString => Some mem
          end
        else Some mem
    | EmptyString => Some mem
    end.
Proof.
  unfold add_bad_sectors at 1. simpl.
  pose proof (strtoul_length s) as Hs.
  destruct (strtoul s) as [v sector_end]. simpl in Hs.
  destruct (store mem sector_array (wrap64s v)) as [mem1|]; simpl; [|done].
  destruct sector_end as [|c rest]; [done|]. simpl in Hs.
  destruct (Ascii.eqb c ",").
  { unfold add_bad_sectors. apply add_bad_sectors_rec_fuel; lia. }
  destruct (Ascii.eqb c "-"); [|done].
  pose proof (strtoul_length rest) as Hr.
  destruct (strtoul rest) as [v' real_end]. simpl in Hr.
  destruct (wrap64s v =? OFF_T_MAX); [done|].
  destruct (store_range mem1 _ _ _) as [mem2|]; simpl; [|done].
  destruct real_end as [|c' rest']; [done|]. simpl in Hr.
  destruct (Ascii.eqb c' ","); [|done].
  unfold add_bad_sectors. apply add_bad_sectors_rec_fuel; lia.
Qed.

(** ** [strtoul] on a numeral *)

Lemma digit_char_props d :
  0 <= d <= 9 →
  digit_of (digit_char d) = Some d ∧ isspace (digit_char d) = false
  ∧ Ascii.eqb (digit_char d) "-" = false
  ∧ Ascii.eqb (digit_char d) "+" = false.
Proof.
  intros H.
  assert (d = 0 ∨ d = 1 ∨ d = 2 ∨ d = 3 ∨ d = 4 ∨ d = 5 ∨ d = 6 ∨ d = 7
          ∨ d = 8 ∨ d = 9) as Hd by lia.
  repeat destruct Hd as [->|Hd]; try subst d; by vm_compute.
Qed.

Lemma scan_digits_stops acc rest : stops rest → scan_digits acc rest = (acc, rest).
Proof. destruct rest as [|c rest]; simpl; [done|]. by intros ->. Qed.

Lemma scan_digits_numeral ds acc rest :
  Forall (λ d, 0 <= d <= 9) ds →
  scan_digits acc (numeral_string ds rest)
  = scan_digits (foldl (λ acc d, 10 * acc + d) acc ds) rest.
Proof.
  intros Hds. revert acc. induction Hds as [|d ds Hd _ IH]; intros acc; simpl;
    [done|].
  destruct (digit_char_props d Hd) as (-> & _). apply IH.
Qed.

Lemma foldl_digits_nonneg ds acc :
  Forall (λ d, 0 <= d <= 9) ds → 0 <= acc →
  acc <= foldl (λ acc d, 10 * acc + d) acc ds.
Proof.
  intros Hds. revert acc. induction Hds as [|d ds Hd _ IH]; intros acc Hacc;
    simpl; [lia|].
  specialize (IH (10 * acc + d)). lia.
Qed.

Lemma numeral_value_nonneg ds : numeral_ok ds → 0 <= numeral_value ds.
Proof. intros (_ & Hds & _). by apply foldl_digits_nonneg. Qed.

Lemma strtoul_numeral ds rest :
  numeral_ok ds → stops rest →
  strtoul (numeral_string ds rest) = (numeral_value ds, rest).
Proof.
  intros Hok Hrest. pose proof (numeral_value_nonneg ds Hok) as Hnn.
  destruct Hok as (Hne & Hds & Hlt).
  destruct ds as [|d ds]; [done|].
  pose proof (scan_digits_numeral (d :: ds) 0 rest Hds) as Hscan.
  rewrite (scan_digits_stops (foldl _ _ _) rest) in Hscan by done.
  pose proof (Forall_inv Hds) as Hd.
  destruct (digit_char_props d Hd) as (Hdig & Hsp & Hminus & Hplus).
  unfold strtoul. cbn [numeral_string skip_spaces] in *.
  rewrite Hsp. unfold read_sign. rewrite Hminus, Hplus, Hdig, Hscan.
  fold (numeral_value (d :: ds)).
  destruct (Z.ltb_spec ULONG_MAX (numeral_value (d :: ds))); [|done].
  unfold ULONG_MAX in *. lia.
Qed.

(** ** Stores into the array under construction *)

Lemma store_next (filled : block) x todo v :
  store (filled ++ x :: todo) (Z.of_nat (length filled)) v
  = Some (filled ++ Some v :: todo).
Proof.
  unfold store. rewrite length_app. simpl.
  rewrite (proj2 (Z.leb_le _ _)) by lia.
  rewrite (proj2 (Z.ltb_lt _ _)) by lia. simpl. f_equal.
  rewrite Nat2Z.id, insert_app_r_alt by lia.
  by rewrite Nat.sub_diag.
Qed.

Lemma store_range_fill (k : nat) : ∀ (filled todo : block) base first a,
  base + (a - first) = Z.of_nat (length filled) →
  (k <= length todo)%nat →
  a + Z.of_nat k <= OFF_T_MAX →
  store_range (filled ++ todo) base first (seqZ a (Z.of_nat k))
  = Some (filled ++ (Some <$> seqZ a (Z.of_nat k)) ++ drop k todo).
Proof.
  induction k as [|k IH]; intros filled todo base first a Hbase Hk Hmax.
  - simpl. by rewrite drop_0.
  - destruct todo as [|x todo]; [simpl in Hk; lia|].
    rewrite seqZ_cons by lia.
    replace (Z.pred (Z.of_nat (S k))) with (Z.of_nat k) by lia.
    cbn [store_range]. rewrite Hbase, store_next. simpl.
    rewrite (proj2 (Z.eqb_neq a OFF_T_MAX)) by lia.
    rewrite (cons_middle (Some a) filled todo), app_assoc.
    rewrite IH; [|rewrite length_app; simpl; lia|simpl in Hk; lia|lia].
    by rewrite <- app_assoc.
Qed.

Lemma contents_written (vs : list Z) : contents (Some <$> vs) = Some vs.
Proof.
  induction vs as [|v vs IH]; [done|].
  rewrite fmap_cons. cbn [contents]. by rewrite IH.
Qed.

(** ** Parsing a well-formed list *)

Lemma term_sectors_length t :
  term_ok t →
  Z.of_nat (length (term_sectors t)) =
    match t with
    | Single _ => 1
    | Range n m => numeral_value m - numeral_value n + 1
    end.
Proof.
  destruct t as [n|n m]; simpl; [done|]. intros (_ & _ & Hle).
  rewrite length_seqZ. lia.
Qed.

Lemma term_value_range n : numeral_ok n → - 2 ^ 63 <= numeral_value n < 2 ^ 63.
Proof.
  intros Hok. pose proof (numeral_value_nonneg n Hok).
  destruct Hok as (_ & _ & ?). lia.
Qed.

(** One term, at the end of the list or before a comma. *)
Lemma get_sector_count_term t :
  term_ok t → Z.of_nat (length (term_sectors t)) < 2 ^ 64 →
  get_sector_count (term_string t "") = Z.of_nat (length (term_sectors t))
  ∧ ∀ rest,
      get_sector_count (term_string t (String "," rest))
      = wrap64u (Z.of_nat (length (term_sectors t)) + get_sector_count rest).
Proof.
  intros Hok Hlen. rewrite term_sectors_length in * by done.
  destruct t as [n|n m]; simpl in *.
  - split; [|intros rest]; rewrite get_sector_count_unfold,
      strtoul_numeral by done; done.
  - destruct Hok as (Hn & Hm & Hle).
    pose proof (term_value_range n Hn). pose proof (term_value_range m Hm).
    split; [|intros rest]; rewrite get_sector_count_unfold,
      strtoul_numeral by done; simpl;
      rewrite strtoul_numeral by done;
      rewrite !wrap64s_small by lia;
      rewrite (wrap64u_small (_ - _ + 1)) by lia; done.
Qed.

Lemma get_sector_count_spec ts : ∀ t,
  Forall term_ok (t :: ts) →
  Z.of_nat (length (spec_sectors (t :: ts))) < 2 ^ 64 →
  get_sector_count (spec_string t ts)
  = Z.of_nat (length (spec_sectors (t :: ts))).
Proof.
  induction ts as [|t' ts IH]; intros t Hok Hlen;
    pose proof (Forall_inv Hok) as Ht;
    unfold spec_sectors in *; rewrite fmap_cons in *; cbn [concat] in *;
    rewrite length_app in *.
  - simpl in *. rewrite Nat.add_0_r.
    apply get_sector_count_term; [done|lia].
  - cbn [spec_string].
    destruct (get_sector_count_term t Ht) as (_ & ->); [lia|].
    rewrite IH; [|by apply Forall_inv_tail in Hok|lia].
    rewrite wrap64u_small by lia. lia.
Qed.

Lemma add_bad_sectors_term t (filled todo : block) :
  term_ok t → (length (term_sectors t) <= length todo)%nat →
  let mem' := filled ++ (Some <$> term_sectors t)
              ++ drop (length (term_sectors t)) todo in
  add_bad_sectors (term_string t "") (Z.of_nat (length filled)) (filled ++ todo)
  = Some mem'
  ∧ ∀ rest,
      add_bad_sectors (term_string t (String "," rest))
        (Z.of_nat (length filled)) (filled ++ todo)
      = add_bad_sectors rest
          (Z.of_nat (length filled) + Z.of_nat (length (term_sectors t))) mem'.
Proof.
  intros Hok Hlen mem'. subst mem'.
  pose proof (term_sectors_length t Hok) as Hcount.
  destruct t as [n|n m]; simpl in Hlen, Hcount |- *.
  - destruct todo as [|x todo]; [simpl in Hlen; lia|].
    pose proof (term_value_range n Hok).
    split; [|intros rest]; rewrite add_bad_sectors_unfold,
      strtoul_numeral by done; simpl;
      rewrite wrap64s_small, store_next by lia; simpl; by rewrite drop_0.
  - destruct Hok as (Hn & Hm & Hle).
    pose proof (term_value_range n Hn). pose proof (term_value_range m Hm).
    rewrite length_seqZ in Hlen, Hcount.
    destruct todo as [|x todo]; [simpl in Hlen; lia|].
    assert (store_range ((filled ++ [Some (numeral_value n)]) ++ todo)
              (Z.of_nat (length filled)) (numeral_value n)
              (seqZ (numeral_value n + 1) (numeral_value m - numeral_value n))
            = Some (filled ++ (Some <$> seqZ (numeral_value n)
                                 (numeral_value m - numeral_value n + 1))
                    ++ drop (Z.to_nat (numeral_value m - numeral_value n + 1))
                         (x :: todo))) as Hfill.
    { replace (numeral_value m - numeral_value n)
        with (Z.of_nat (Z.to_nat (numeral_value m - numeral_value n))) by lia.
      rewrite store_range_fill;
        [|rewrite length_app; simpl; lia|simpl in Hlen; lia|lia].
      rewrite <- app_assoc. do 2 f_equal.
      rewrite (seqZ_cons (numeral_value n)) by lia.
      rewrite fmap_cons. simpl. do 2 f_equal.
      - do 2 f_equal; lia.
      - replace (Z.to_nat
                   (Z.of_nat (Z.to_nat (numeral_value m - numeral_value n))
                    + 1))
          with (S (Z.to_nat (numeral_value m - numeral_value n))) by lia.
        done. }
    rewrite length_seqZ.
    split; [|intros rest]; rewrite add_bad_sectors_unfold,
      strtoul_numeral by done; simpl;
      rewrite strtoul_numeral by done;
      rewrite !wrap64s_small, store_next by lia; simpl;
      rewrite (proj2 (Z.eqb_neq (numeral_value n) OFF_T_MAX)) by lia;
      rewrite (cons_middle (Some (numeral_value n)) filled todo), app_assoc;
      rewrite Hfill; simpl; [done|].
    f_equal. lia.
Qed.

Lemma add_bad_sectors_spec ts : ∀ t (filled todo : block),
  Forall term_ok (t :: ts) →
  (length (spec_sectors (t :: ts)) <= length todo)%nat →
  add_bad_sectors (spec_string t ts) (Z.of_nat (length filled)) (filled ++ todo)
  = Some (filled ++ (Some <$> spec_sectors (t :: ts))
          ++ drop (length (spec_sectors (t :: ts))) todo).
Proof.
  induction ts as [|t' ts IH]; intros t filled todo Hok Hlen;
    pose proof (Forall_inv Hok) as Ht;
    unfold spec_sectors in *; rewrite fmap_cons in *; cbn [concat] in *;
    rewrite length_app in *.
  - simpl in *. rewrite Nat.add_0_r, app_nil_r.
    apply add_bad_sectors_term; [done|lia].
  - cbn [spec_string].
    destruct (add_bad_sectors_term t filled todo Ht) as (_ & ->); [lia|].
    replace (Z.of_nat (length filled) + Z.of_nat (length (term_sectors t)))
      with (Z.of_nat (length (filled ++ (Some <$> term_sectors t))))
      by (rewrite length_app, length_fmap; lia).
    rewrite (app_assoc filled).
    rewrite IH; [|by apply Forall_inv_tail in Hok|rewrite length_drop; lia].
    rewrite drop_drop, fmap_app, <- !app_assoc. done.
Qed.

Lemma build_bad_sector_list_spec t ts g :
  Forall term_ok (t :: ts) →
  Z.of_nat (length (spec_sectors (t :: ts))) * sizeof_off_t <= PTRDIFF_MAX →
  build_bad_sector_list (Some (spec_string t ts)) g
  = Some (set_bad_sectors g (Z.of_nat (length (spec_sectors (t :: ts))))
            (spec_sectors (t :: ts))).
Proof.
  intros Hok Hlen. unfold build_bad_sector_list.
  rewrite get_sector_count_spec;
    [|done|unfold sizeof_off_t, PTRDIFF_MAX in Hlen; lia].
  unfold malloc_array. rewrite malloc_cells_small by lia. rewrite Nat2Z.id.
  pose proof (add_bad_sectors_spec ts t []
                (replicate (length (spec_sectors (t :: ts))) None) Hok) as H.
  change (Z.of_nat (length [])) with 0 in H. rewrite !app_nil_l in H.
  rewrite H by (rewrite length_replicate; lia). simpl.
  rewrite drop_ge by (rewrite length_replicate; lia).
  by rewrite app_nil_r, contents_written.
Qed.

(** ** Sessions on well-formed globals *)

Lemma read_callback_wf st_size path size offset g :
  wf g →
  ∃ r g', read_callback st_size path size offset g = Some (r, g')
          ∧ shrinks_by 0 g g'.
Proof.
  intros Hwf. unfold read_callback.
  destruct (String.eqb path (filepath g));
    [|eexists _, g; split; [done|by apply shrinks_by_refl]].
  pose proof (shrinks_by_get_disk_size st_size g Hwf) as Hsh.
  destruct (get_disk_size st_size g) as [len g1]. simpl in Hsh.
  destruct (len <=? wrap64u offset); [by eexists _, g1|].
  destruct (read_scan_wf
              (sector_loop (first_sector_of offset)
                 (last_sector_of (truncate_size len size offset) offset))
              g1) as (b & -> & _); [by destruct Hsh|].
  simpl. destruct b; by eexists _, g1.
Qed.

Lemma serve_counted_wf rq g :
  wf g → ∃ n g', serve_counted rq g = Some (n, g') ∧ shrinks_by n g g'.
Proof.
  intros Hwf. destruct rq as [st_size path size offset
                             |st_size path size offset|sector]; simpl.
  - destruct (read_callback_wf st_size path size offset g Hwf)
      as (r & g' & -> & Hsh).
    by exists O, g'.
  - destruct (String.eqb path (filepath g));
      [|exists O, g; split; [done|by apply shrinks_by_refl]].
    pose proof (shrinks_by_get_disk_size st_size g Hwf) as Hsh.
    destruct (get_disk_size st_size g) as [len g1]. simpl in Hsh.
    destruct (len <=? wrap64u offset); [by exists O, g1|].
    destruct (write_scan_counted_wf
                (sector_loop (first_sector_of offset)
                   (last_sector_of (truncate_size len size offset) offset))
                g1) as (n & aborted & g' & -> & Hsh'); [by destruct Hsh|].
    simpl. exists n, g'. split; [done|].
    by apply (shrinks_by_trans 0 n g g1 g').
  - destruct (decide (sector ∈ bad_sectors g ∧ 0 < reserve_sectors g))
      as [[Hin Hr]|Hno].
    + destruct (repair_bad_sector_succeeds sector g Hwf Hin Hr)
        as (k & Hk & -> & Hwf').
      simpl. exists 1%nat, (repaired k g). split; [done|].
      apply shrinks_by_repaired; [done| |done].
      apply list_find_Some in Hk. destruct Hk as (Hk & _).
      by apply lookup_lt_Some in Hk.
    + rewrite repair_bad_sector_fails; [|done|].
      * simpl. exists O, g. split; [done|]. by apply shrinks_by_refl.
      * destruct (decide (sector ∈ bad_sectors g)); [|by left].
        right. destruct Hwf as (_ & _ & ? & _).
        destruct (decide (0 < reserve_sectors g)); [|lia]. by destruct Hno.
Qed.

Lemma session_counted_wf rqs : ∀ g,
  wf g → ∃ n g', session_counted rqs g = Some (n, g') ∧ shrinks_by n g g'.
Proof.
  induction rqs as [|rq rqs IH]; intros g Hwf; simpl.
  - exists O, g. split; [done|]. by apply shrinks_by_refl.
  - destruct (serve_counted_wf rq g Hwf) as (n & g1 & -> & Hsh). simpl.
    destruct (IH g1) as (m & g2 & -> & Hsh'); [by destruct Hsh|]. simpl.
    exists (n + m)%nat, g2. split; [done|].
    by apply (shrinks_by_trans n m g g1 g2).
Qed.

Lemma serve_erase rq g : snd <$> serve rq g = snd <$> serve_counted rq g.
Proof.
  destruct rq as [st_size path size offset|st_size path size offset|sector];
    simpl.
  - by destruct (read_callback _ _ _ _ _) as [[r g']|].
  - unfold write_callback. destruct (String.eqb path (filepath g)); [|done].
    destruct (get_disk_size st_size g) as [len g1].
    destruct (len <=? wrap64u offset); [done|].
    rewrite write_scan_erase.
    destruct (write_scan_counted _ g1) as [[n [aborted g']]|]; simpl; [|done].
    by destruct aborted.
  - by destruct (repair_bad_sector sector g) as [[ret g']|].
Qed.

Lemma session_erase rqs : ∀ g,
  session rqs g = snd <$> session_counted rqs g.
Proof.
  induction rqs as [|rq rqs IH]; intros g; simpl; [done|].
  pose proof (serve_erase rq g) as H.
  destruct (serve rq g) as [[a g1]|], (serve_counted rq g) as [[n g1']|];
    simpl in H; try done.
  injection H as <-. simpl. rewrite IH.
  by destruct (session_counted rqs g1) as [[m g2]|].
Qed.

(** ** The callbacks on a request inside the disk *)

Lemma read_callback_served st_size path size offset g len g1 :
  path = filepath g → get_disk_size st_size g = (len, g1) →
  wrap64u offset < len →
  read_callback st_size path size offset g =
    bad ← read_scan
             (sector_loop (first_sector_of offset)
                (last_sector_of (truncate_size len size offset) offset)) g1;
    Some (if bad : bool then Fault_EIO
          else Backing_pread (truncate_size len size offset) offset, g1).
Proof.
  intros -> Hlen Hoff. unfold read_callback.
  rewrite String.eqb_refl, Hlen.
  rewrite (proj2 (Z.leb_gt _ _)) by done.
  destruct (read_scan _ g1) as [[]|]; done.
Qed.

Lemma write_callback_served st_size path size offset g len g1 :
  path = filepath g → get_disk_size st_size g = (len, g1) →
  wrap64u offset < len →
  write_callback st_size path size offset g =
    '(aborted, g') ← write_scan
             (sector_loop (first_sector_of offset)
                (last_sector_of (truncate_size len size offset) offset)) g1;
    Some (if aborted : bool then Fault_EIO
          else Backing_pwrite (truncate_size len size offset) offset, g').
Proof.
  intros -> Hlen Hoff. unfold write_callback.
  rewrite String.eqb_refl, Hlen.
  rewrite (proj2 (Z.leb_gt _ _)) by done.
  destruct (write_scan _ g1) as [[[] g']|]; done.
Qed.

Lemma callback_past_end st_size path size offset g len g1 :
  path = filepath g → get_disk_size st_size g = (len, g1) →
  len <= wrap64u offset →
  read_callback st_size path size offset g = Some (Return 0, g1)
  ∧ write_callback st_size path size offset g = Some (Return 0, g1).
Proof.
  intros -> Hlen Hoff. unfold read_callback, write_callback.
  rewrite String.eqb_refl, Hlen.
  by rewrite (proj2 (Z.leb_le _ _)) by done.
Qed.

Lemma get_disk_size_pair st_size g len g1 :
  wf g → get_disk_size st_size g = (len, g1) →
  wf g1 ∧ 0 <= len < 2 ^ 64
  ∧ bad_sector_count g1 = bad_sector_count g
  ∧ bad_sectors g1 = bad_sectors g
  ∧ reserve_sectors g1 = reserve_sectors g.
Proof.
  intros Hwf Hlen.
  pose proof (get_disk_size_wf st_size g Hwf) as H1.
  pose proof (get_disk_size_range st_size g Hwf) as H2.
  pose proof (get_disk_size_fault_state st_size g) as (_ & H3 & H4 & H5).
  rewrite Hlen in *. done.
Qed.

Lemma write_scan_wf sectors g :
  wf g →
  ∃ n aborted g', write_scan sectors g = Some (aborted, g')
                  ∧ shrinks_by n g g'.
Proof.
  intros Hwf. rewrite write_scan_erase.
  destruct (write_scan_counted_wf sectors g Hwf) as (n & a & g' & -> & H).
  by exists n, a, g'.
Qed.

Lemma write_scan_aborted sectors g g' :
  wf g → write_scan sectors g = Some (true, g') →
  ∃ s, s ∈ sectors ∧ s ∈ bad_sectors g.
Proof.
  intros Hwf Hscan.
  destruct (decide (Exists (λ s, s ∈ bad_sectors g) sectors)) as [H|H].
  - apply Exists_exists in H as (s & Hs & Hbad). by exists s.
  - apply not_Exists_Forall in H; [|apply _]. rewrite Forall_forall in H.
    rewrite write_scan_clean in Hscan; [done|done|].
    intros s Hs. by apply H.
Qed.

Lemma write_scan_completed sectors : ∀ g g' s,
  wf g → write_scan sectors g = Some (false, g') →
  s ∈ sectors → s ∈ bad_sectors g →
  bad_sector_count g' < bad_sector_count g.
Proof.
  induction sectors as [|h sectors IH]; intros g g' s Hwf Hscan Hs Hbad.
  { by apply elem_of_nil in Hs. }
  simpl in Hscan. rewrite scan_bad_sectors_wf in Hscan by done.
  destruct (decide (h ∈ bad_sectors g)) as [Hin|Hnin].
  - destruct (list_find_eq_elem _ _ Hin) as [k Hk]. rewrite Hk in Hscan.
    destruct (Z.lt_ge_cases 0 (reserve_sectors g)) as [Hr|Hr].
    + destruct (repair_bad_sector_succeeds h g Hwf Hin Hr)
        as (k' & _ & Hrep & Hwf').
      rewrite Hrep in Hscan. simpl in Hscan.
      destruct (write_scan_wf sectors _ Hwf')
        as (n & a & g2 & Hscan' & _ & Hc & _).
      rewrite Hscan' in Hscan. injection Hscan as -> ->.
      simpl in Hc. lia.
    + rewrite repair_bad_sector_fails in Hscan;
        [done|done|right; destruct Hwf as (_ & _ & ? & _); lia].
  - rewrite list_find_eq_None in Hscan by done.
    apply elem_of_cons in Hs as [->|Hs]; [done|]. by apply (IH g g' s).
Qed.

(** ** Deleting one cell *)

Lemma elem_of_delete_other (l : list Z) k s x :
  l !! k = Some s → x ≠ s → x ∈ delete k l ↔ x ∈ l.
Proof.
  intros Hk Hne. rewrite delete_take_drop.
  rewrite <- (take_drop_middle l k s Hk) at 3.
  rewrite !elem_of_app, elem_of_cons. tauto.
Qed.


(** ** Sector arithmetic without wrap-around *)

Lemma truncate_size_min len size offset :
  0 <= offset < len → len < 2 ^ 64 → 0 <= size → offset + size < 2 ^ 64 →
  truncate_size len size offset = Z.min size (len - offset).
Proof.
  intros Hoff Hlen Hsize Hsum. unfold truncate_size.
  rewrite wrap64u_small by lia.
  destruct (Z.ltb_spec len (offset + size)); [|lia].
  rewrite wrap64u_small by lia. lia.
Qed.

Lemma sector_bounds size offset :
  0 <= offset → 0 <= size → offset + size + sector_size <= 2 ^ 63 →
  first_sector_of offset = offset / sector_size
  ∧ last_sector_of size offset = (offset + size + sector_size - 1) / sector_size.
Proof.
  unfold first_sector_of, last_sector_of, sector_size. intros Hoff Hsize Hsum.
  rewrite !wrap64u_small by lia.
  assert (∀ a, 0 <= a < 2 ^ 63 → - 2 ^ 63 <= a / 512 < 2 ^ 63) as Hdiv.
  { intros a Ha. split.
    - transitivity 0; [lia|]. apply Z.div_pos; lia.
    - apply Z.div_lt_upper_bound; lia. }
  rewrite !wrap64s_small by (apply Hdiv; lia). done.
Qed.

(** ** The sectors of a well-formed list *)

Lemma elem_of_term_sectors t s :
  s ∈ term_sectors t ↔
    match t with
    | Single n => s = numeral_value n
    | Range n m => numeral_value n <= s <= numeral_value m
    end.
Proof.
  destruct t as [n|n m]; simpl.
  - apply list_elem_of_singleton.
  - rewrite elem_of_seqZ. lia.
Qed.

Lemma elem_of_spec_sectors ts s :
  s ∈ spec_sectors ts ↔ ∃ t, t ∈ ts ∧ s ∈ term_sectors t.
Proof.
  unfold spec_sectors. induction ts as [|t ts IH].
  - simpl. split; [by intros ?%elem_of_nil|].
    by intros (t & ?%elem_of_nil & _).
  - rewrite fmap_cons. cbn [concat]. rewrite elem_of_app, IH. split.
    + intros [H|(t' & Ht' & H)]; [exists t; split; [left|done]|].
      exists t'. split; [by right|done].
    + intros (t' & Ht' & H). apply elem_of_cons in Ht' as [->|Ht'];
        [by left|]. right. by exists t'.
Qed.

Lemma build_bad_sector_list_wf t ts g :
  Forall term_ok (t :: ts) →
  Z.of_nat (length (spec_sectors (t :: ts))) * sizeof_off_t <= PTRDIFF_MAX →
  wf g →
  wf (set_bad_sectors g (Z.of_nat (length (spec_sectors (t :: ts))))
        (spec_sectors (t :: ts))).
Proof. intros _ Hlen (_ & _ & Hr & Hd). unfold wf. simpl. done. Qed.

(** ** Counting the cells that hold a sector *)

Lemma occurrences_delete (arr : list Z) k sector :
  arr !! k = Some sector →
  occurrences sector arr = S (occurrences sector (delete k arr)).
Proof.
  intros Hk. unfold occurrences. rewrite delete_take_drop.
  rewrite <- (take_drop_middle arr k sector Hk) at 1.
  rewrite !filter_app, filter_cons_True by done.
  rewrite !length_app. simpl. lia.
Qed.

Lemma occurrences_elem_of sector (arr : list Z) :
  sector ∈ arr ↔ (0 < occurrences sector arr)%nat.
Proof.
  unfold occurrences. split.
  - intros Hin.
    assert (sector ∈ filter (λ x, x = sector) arr) as H
      by (by apply list_elem_of_filter).
    destruct (filter _ arr); [by apply elem_of_nil in H|simpl; lia].
  - intros Hpos. destruct (filter _ arr) as [|x l] eqn:E; [simpl in Hpos; lia|].
    assert (x ∈ filter (λ x, x = sector) arr) as H by (rewrite E; left).
    apply list_elem_of_filter in H as [-> H]. done.
Qed.

(** * The claims *)

Lemma example_globals_wf : wf example_globals.
Proof. unfold wf, sizeof_off_t, PTRDIFF_MAX. simpl. lia. Qed.

(** C1: [write_callback] scans the sectors of the request in ascending
    order.  When the scan has passed the sectors [pre] (repairing some of
    them) and reaches a bad sector [s] whose repair fails, the call returns
    the [EIO] fault at once: the reply is not the [pwrite] of the image, and
    the globals are those reached after [pre], repairs included.  The repair
    of a bad sector can only fail for want of a reserve sector. *)
Theorem write_aborts_at_failed_repair
    st_size path size offset g len g1 pre s post g2 ret g3 :
  wf g → path = filepath g → get_disk_size st_size g = (len, g1) →
  wrap64u offset < len →
  sector_loop (first_sector_of offset)
    (last_sector_of (truncate_size len size offset) offset)
  = pre ++ s :: post →
  write_scan pre g1 = Some (false, g2) →
  s ∈ bad_sectors g2 →
  repair_bad_sector s g2 = Some (ret, g3) → ret ≠ 0 →
  write_callback st_size path size offset g = Some (Fault_EIO, g2)
  ∧ g3 = g2 ∧ reserve_sectors g2 = 0.
Proof.
  intros Hwf Hpath Hlen Hoff Hloop Hpre Hbad Hrep Hret.
  destruct (get_disk_size_pair st_size g len g1 Hwf Hlen) as (Hwf1 & _).
  destruct (write_scan_wf pre g1 Hwf1) as (n & a & g2' & Hpre' & Hwf2 & _).
  rewrite Hpre in Hpre'. injection Hpre' as <- <-.
  assert (reserve_sectors g2 = 0 ∧ g3 = g2) as [Hr ->].
  { destruct (Z.lt_ge_cases 0 (reserve_sectors g2)) as [Hpos|Hzero].
    - destruct (repair_bad_sector_succeeds s g2 Hwf2 Hbad Hpos)
        as (k & _ & Hrep' & _).
      rewrite Hrep in Hrep'. by injection Hrep' as -> _.
    - assert (reserve_sectors g2 = 0) as Hr
        by (destruct Hwf2 as (_ & _ & ? & _); lia).
      rewrite repair_bad_sector_fails in Hrep by auto.
      by injection Hrep as _ <-. }
  split; [|done].
  rewrite (write_callback_served st_size path size offset g len g1) by done.
  rewrite Hloop, write_scan_app, Hpre. simpl.
  rewrite scan_bad_sectors_wf by done.
  destruct (list_find_eq_elem _ _ Hbad) as [k ->].
  rewrite Hrep. simpl. by rewrite (proj2 (Z.eqb_neq _ _)) by done.
Qed.

Lemma write_aborts_at_failed_repair_witness :
  write_scan [10] example_globals = Some (false, example_repaired)
  ∧ repair_bad_sector 11 example_repaired = Some (-1, example_repaired)
  ∧ write_callback 1000000 "/disk.img" 1024 5120 example_globals
    = Some (Fault_EIO, example_repaired).
Proof.
  assert (write_scan [10] example_globals = Some (false, example_repaired))
    as Hpre by reflexivity.
  assert (repair_bad_sector 11 example_repaired
          = Some (-1, example_repaired)) as Hrep by reflexivity.
  split; [exact Hpre|]. split; [exact Hrep|].
  apply (write_aborts_at_failed_repair 1000000 "/disk.img" 1024 5120
           example_globals 1000000 example_globals [10] 11 [12]
           example_repaired (-1) example_repaired).
  - exact example_globals_wf.
  - reflexivity.
  - reflexivity.
  - reflexivity.
  - reflexivity.
  - exact Hpre.
  - apply list_elem_of_In. simpl. auto.
  - exact Hrep.
  - discriminate.
Defined.



(** C3: a read inside the disk whose sector range contains a sector of the
    bad-sector array fails with [EIO]: the reply is not the [pread] of the
    image, and the bad-sector array, its count and the reserve count are
    unchanged. *)
Theorem read_bad_sector_faults st_size path size offset g len g1 s :
  wf g → path = filepath g → get_disk_size st_size g = (len, g1) →
  wrap64u offset < len →
  first_sector_of offset <= s
    <= last_sector_of (truncate_size len size offset) offset →
  s ∈ bad_sectors g →
  read_callback st_size path size offset g = Some (Fault_EIO, g1)
  ∧ bad_sector_count g1 = bad_sector_count g
  ∧ bad_sectors g1 = bad_sectors g
  ∧ reserve_sectors g1 = reserve_sectors g.
Proof.
  intros Hwf Hpath Hlen Hoff Hs Hbad.
  destruct (get_disk_size_pair st_size g len g1 Hwf Hlen)
    as (Hwf1 & _ & Hc & Hb & Hr).
  split; [|done].
  rewrite (read_callback_served st_size path size offset g len g1) by done.
  destruct (read_scan_wf
              (sector_loop (first_sector_of offset)
                 (last_sector_of (truncate_size len size offset) offset))
              g1 Hwf1) as (b & -> & Hbs).
  simpl. destruct b; [done|]. exfalso.
  assert (false = true) as Hf; [|done]. apply Hbs. exists s.
  rewrite Hb. split; [|done]. unfold sector_loop. apply elem_of_seqZ. lia.
Qed.

Lemma read_bad_sector_faults_witness :
  read_callback 1000000 "/disk.img" 512 4608 example_globals
  = Some (Fault_EIO, example_globals).
Proof.
  apply (read_bad_sector_faults 1000000 "/disk.img" 512 4608 example_globals
           1000000 example_globals 10).
  - exact example_globals_wf.
  - reflexivity.
  - reflexivity.
  - vm_compute. reflexivity.
  - vm_compute. split; discriminate.
  - apply list_elem_of_In. simpl. auto.
Defined.

(** C4: for a request inside the disk, with the length as truncated at the
    end of the disk, both callbacks scan the sectors from
    [offset / sector_size] to the ceiling of [(offset + length) / sector_size],
    both included: a read faults exactly when one of them is bad; a write
    reaches the image untouched when none is bad and cannot reach it without
    a repair (or faults) when one is.  When [offset + length] is a multiple
    of [sector_size] the last sector scanned is the one after the sector of
    the last byte, and a bad sector there makes the read fault. *)
Theorem sector_range_checked st_size path size offset g len g1 :
  wf g → path = filepath g → get_disk_size st_size g = (len, g1) →
  0 <= offset < len → len + sector_size <= 2 ^ 63 → 0 <= size < 2 ^ 63 →
  let n := truncate_size len size offset in
  let lo := offset / sector_size in
  let hi := (offset + n + sector_size - 1) / sector_size in
  first_sector_of offset = lo ∧ last_sector_of n offset = hi
  ∧ sector_size * (hi - 1) < offset + n <= sector_size * hi
  ∧ (read_callback st_size path size offset g = Some (Fault_EIO, g1)
     ↔ ∃ s, lo <= s <= hi ∧ s ∈ bad_sectors g)
  ∧ ((∀ s, lo <= s <= hi → s ∉ bad_sectors g) →
     write_callback st_size path size offset g
     = Some (Backing_pwrite n offset, g1))
  ∧ (∀ s r g', lo <= s <= hi → s ∈ bad_sectors g →
     write_callback st_size path size offset g = Some (r, g') →
     r = Fault_EIO ∨ bad_sector_count g' < bad_sector_count g)
  ∧ (reserve_sectors g = 0 →
     write_callback st_size path size offset g = Some (Fault_EIO, g1)
     ↔ ∃ s, lo <= s <= hi ∧ s ∈ bad_sectors g)
  ∧ ((offset + n) `mod` sector_size = 0 → 0 < n →
     hi = (offset + n) / sector_size
     ∧ hi = (offset + n - 1) / sector_size + 1
     ∧ (hi ∈ bad_sectors g →
        read_callback st_size path size offset g = Some (Fault_EIO, g1))).
Proof.
  intros Hwf Hpath Hlen Hoff Hmax Hsize n lo hi.
  destruct (get_disk_size_pair st_size g len g1 Hwf Hlen)
    as (Hwf1 & Hrange & Hc & Hb & Hr).
  assert (n = Z.min size (len - offset)) as Hn.
  { unfold n. apply truncate_size_min; unfold sector_size in *; lia. }
  destruct (sector_bounds n offset) as (Hlo & Hhi);
    [lia|lia|unfold sector_size in *; lia|].
  fold lo in Hlo. fold hi in Hhi.
  assert (sector_size * (hi - 1) < offset + n <= sector_size * hi) as Hceil.
  { unfold hi, sector_size. Z.to_euclidean_division_equations. lia. }
  assert (lo <= hi) as Hlohi.
  { unfold lo, hi, sector_size. apply Z.div_le_mono; lia. }
  assert (read_callback st_size path size offset g = Some (Fault_EIO, g1)
          ↔ ∃ s, lo <= s <= hi ∧ s ∈ bad_sectors g) as Hread.
  { rewrite (read_callback_served st_size path size offset g len g1)
      by (try done; rewrite wrap64u_small; lia).
    fold n. rewrite Hlo, Hhi.
    destruct (read_scan_wf (sector_loop lo hi) g1 Hwf1) as (b & -> & Hbs).
    simpl. rewrite Hb in Hbs. unfold sector_loop in Hbs.
    assert (b = true ↔ ∃ s, lo <= s <= hi ∧ s ∈ bad_sectors g) as <-.
    { rewrite Hbs. split; intros (s & Hs & Hbad); exists s; (split; [|done]).
      - apply elem_of_seqZ in Hs. lia.
      - apply elem_of_seqZ. lia. }
    destruct b; split; intros; done. }
  split; [done|]. split; [done|]. split; [done|]. split; [done|].
  split; [|split; [|split]].
  - intros Hclean.
    rewrite (write_callback_served st_size path size offset g len g1)
      by (try done; rewrite wrap64u_small; lia).
    fold n. rewrite Hlo, Hhi, write_scan_clean; [done|done|].
    intros s Hs. rewrite Hb. apply Hclean.
    unfold sector_loop in Hs. apply elem_of_seqZ in Hs. lia.
  - intros s r g' Hs Hbad.
    rewrite (write_callback_served st_size path size offset g len g1)
      by (try done; rewrite wrap64u_small; lia).
    fold n. rewrite Hlo, Hhi.
    destruct (write_scan (sector_loop lo hi) g1) as [[[] g2]|] eqn:Hscan;
      simpl; intros [= <- <-]; [by left|right].
    rewrite <- Hc.
    apply (write_scan_completed (sector_loop lo hi) g1 g2 s);
      [done|done| |by rewrite Hb].
    unfold sector_loop. apply elem_of_seqZ. lia.
  - intros Hzero.
    rewrite (write_callback_served st_size path size offset g len g1)
      by (try done; rewrite wrap64u_small; lia).
    fold n. rewrite Hlo, Hhi.
    destruct (write_scan_no_reserve (sector_loop lo hi) g1 Hwf1)
      as (aborted & -> & Ha); [by rewrite Hr|].
    simpl. rewrite Hb in Ha. unfold sector_loop in Ha.
    assert (aborted = true ↔ ∃ s, lo <= s <= hi ∧ s ∈ bad_sectors g) as <-.
    { rewrite Ha. split; intros (s & Hs & Hbad); exists s; (split; [|done]).
      - apply elem_of_seqZ in Hs. lia.
      - apply elem_of_seqZ. lia. }
    destruct aborted; split; intros; done.
  - intros Hmod Hpos. split; [|split].
    + unfold hi, sector_size in *. Z.to_euclidean_division_equations. lia.
    + unfold hi, sector_size in *. Z.to_euclidean_division_equations. lia.
    + intros Hbad. apply Hread. exists hi. split; [lia|done].
Qed.

Lemma sector_range_checked_witness :
  first_sector_of 4608 = 9 ∧ last_sector_of 512 4608 = 10
  ∧ (4608 + 512 - 1) / sector_size = 9
  ∧ read_callback 1000000 "/disk.img" 512 4608 example_globals
    = Some (Fault_EIO, example_globals).
Proof.
  assert (0 <= 4608 < 1000000) as H1 by lia.
  assert (1000000 + sector_size <= 2 ^ 63) as H2 by (unfold sector_size; lia).
  assert (0 <= 512 < 2 ^ 63) as H3 by lia.
  pose proof (sector_range_checked 1000000 "/disk.img" 512 4608
                example_globals 1000000 example_globals example_globals_wf
                eq_refl eq_refl H1 H2 H3) as H.
  cbv zeta in H. destruct H as (Hlo & Hhi & _ & _ & _ & _ & _ & Hquirk).
  destruct Hquirk as (_ & _ & Hread); [reflexivity|reflexivity|].
  split; [exact Hlo|]. split; [exact Hhi|]. split; [reflexivity|].
  apply Hread. apply list_elem_of_In. simpl. auto.
Defined.

(** C5: a request at or past the end of the disk returns 0 without a [pread]
    or [pwrite] and without a fault, and leaves the fault state as it was.  A
    request that starts inside the disk and runs past its end has its length
    replaced by [len - offset]: the sector range is computed from that
    length, the image is read or written with that length, and a fault is
    raised only for a bad sector of that range. *)
Theorem requests_at_the_end_of_the_disk st_size path size offset g len g1 :
  wf g → path = filepath g → get_disk_size st_size g = (len, g1) →
  - 2 ^ 63 <= offset < 2 ^ 63 → 0 <= size → offset + size < 2 ^ 64 →
  (len <= offset →
     read_callback st_size path size offset g = Some (Return 0, g1)
     ∧ write_callback st_size path size offset g = Some (Return 0, g1)
     ∧ bad_sector_count g1 = bad_sector_count g
     ∧ bad_sectors g1 = bad_sectors g
     ∧ reserve_sectors g1 = reserve_sectors g)
  ∧ (0 <= offset < len → len < offset + size →
     truncate_size len size offset = len - offset
     ∧ (∃ bad : bool,
          read_callback st_size path size offset g
          = Some (if bad then Fault_EIO
                  else Backing_pread (len - offset) offset, g1)
          ∧ (bad = true ↔
               ∃ s, first_sector_of offset <= s
                      <= last_sector_of (len - offset) offset
                    ∧ s ∈ bad_sectors g))
     ∧ (∃ (aborted : bool) g',
          write_callback st_size path size offset g
          = Some (if aborted then Fault_EIO
                  else Backing_pwrite (len - offset) offset, g')
          ∧ (aborted = true →
               ∃ s, first_sector_of offset <= s
                      <= last_sector_of (len - offset) offset
                    ∧ s ∈ bad_sectors g))).
Proof.
  intros Hwf Hpath Hlen Hoff Hsize Hsum.
  destruct (get_disk_size_pair st_size g len g1 Hwf Hlen)
    as (Hwf1 & Hrange & Hc & Hb & Hr).
  split.
  - intros Hpast.
    destruct (callback_past_end st_size path size offset g len g1)
      as (-> & ->); [done|done|rewrite wrap64u_small; lia|done].
  - intros Hin Hover.
    assert (truncate_size len size offset = len - offset) as Htr.
    { rewrite truncate_size_min by lia. lia. }
    split; [done|].
    rewrite (read_callback_served st_size path size offset g len g1),
      (write_callback_served st_size path size offset g len g1)
      by (try done; rewrite wrap64u_small; lia).
    rewrite Htr. split.
    + destruct (read_scan_wf
                  (sector_loop (first_sector_of offset)
                     (last_sector_of (len - offset) offset)) g1 Hwf1)
        as (b & -> & Hbs).
      exists b. split; [done|]. rewrite Hbs, Hb. unfold sector_loop.
      split; intros (s & Hs & Hbad); exists s; (split; [|done]).
      * apply elem_of_seqZ in Hs. lia.
      * apply elem_of_seqZ. lia.
    + destruct (write_scan_wf
                  (sector_loop (first_sector_of offset)
                     (last_sector_of (len - offset) offset)) g1 Hwf1)
        as (n & aborted & g' & Hscan & _).
      rewrite Hscan. simpl. exists aborted, g'. split; [done|].
      intros ->. apply write_scan_aborted in Hscan as (s & Hs & Hbad);
        [|done].
      exists s. rewrite <- Hb. split; [|done].
      apply elem_of_seqZ in Hs. lia.
Qed.

Lemma requests_at_the_end_of_the_disk_witness :
  read_callback 1000000 "/disk.img" 4096 1000000 example_globals
  = Some (Return 0, example_globals)
  ∧ write_callback 1000000 "/disk.img" 4096 1000000 example_globals
    = Some (Return 0, example_globals)
  ∧ truncate_size 1000000 4096 999000 = 1000000 - 999000.
Proof.
  assert (- 2 ^ 63 <= 1000000 < 2 ^ 63) as H1 by lia.
  assert (0 <= 4096) as H2 by lia.
  assert (1000000 + 4096 < 2 ^ 64) as H3 by lia.
  destruct (requests_at_the_end_of_the_disk 1000000 "/disk.img" 4096 1000000
              example_globals 1000000 example_globals example_globals_wf
              eq_refl eq_refl H1 H2 H3) as [Hpast _].
  assert (- 2 ^ 63 <= 999000 < 2 ^ 63) as H4 by lia.
  assert (999000 + 4096 < 2 ^ 64) as H5 by lia.
  destruct (requests_at_the_end_of_the_disk 1000000 "/disk.img" 4096 999000
              example_globals 1000000 example_globals example_globals_wf
              eq_refl eq_refl H4 H2 H5) as [_ Hover].
  destruct Hpast as (Hr & Hw & _); [lia|].
  destruct Hover as (Ht & _ & _); [lia|lia|].
  split; [exact Hr|]. split; [exact Hw|]. exact Ht.
Defined.

(** C6: for a well-formed, non-empty list (terms [N] and [N-M] with
    [N <= M] and [M] below the largest [off_t], separated by commas)
    [build_bad_sector_list] stores every sector of every term, in the order
    of the list: a term [N-M] contributes all the sectors from [N] to [M],
    both included, a term [N] the sector [N]. *)
Theorem well_formed_list_expanded t ts g :
  Forall term_ok (t :: ts) →
  Z.of_nat (length (spec_sectors (t :: ts))) * sizeof_off_t <= PTRDIFF_MAX →
  ∃ g',
    build_bad_sector_list (Some (spec_string t ts)) g = Some g'
    ∧ bad_sectors g' = spec_sectors (t :: ts)
    ∧ bad_sector_count g' = Z.of_nat (length (spec_sectors (t :: ts)))
    ∧ reserve_sectors g' = reserve_sectors g
    ∧ ∀ s, s ∈ bad_sectors g' ↔
        ∃ t', t' ∈ t :: ts
              ∧ match t' with
                | Single n => s = numeral_value n
                | Range n m => numeral_value n <= s <= numeral_value m
                end.
Proof.
  intros Hok Hlen. rewrite build_bad_sector_list_spec by done.
  eexists. split; [done|]. simpl. split_and!; [done..|].
  intros s. rewrite elem_of_spec_sectors.
  split; intros (t' & Ht' & H); exists t'; (split; [done|]);
    by apply elem_of_term_sectors.
Qed.

Lemma well_formed_list_expanded_witness :
  (∃ g', build_bad_sector_list (Some "0-4"%string) initial_globals = Some g'
         ∧ bad_sectors g' = [0; 1; 2; 3; 4])
  ∧ (∃ g', build_bad_sector_list (Some "1,3,5-7"%string) initial_globals
           = Some g'
           ∧ bad_sectors g' = [1; 3; 5; 6; 7]).
Proof.
  assert (∀ d, 0 <= d <= 9 → numeral_ok [d]) as Hdigit.
  { intros d Hd. unfold numeral_ok, numeral_value. simpl.
    split; [discriminate|]. split; [|lia]. constructor; [exact Hd|constructor]. }
  split.
  - destruct (well_formed_list_expanded (Range [0] [4]) [] initial_globals)
      as (g' & Hbuild & Harr & _).
    + constructor; [|constructor]. simpl.
      split; [apply Hdigit; lia|]. split; [apply Hdigit; lia|].
      unfold numeral_value, OFF_T_MAX. simpl. lia.
    + unfold sizeof_off_t, PTRDIFF_MAX. simpl. lia.
    + exists g'. split; [exact Hbuild|exact Harr].
  - destruct (well_formed_list_expanded (Single [1])
                [Single [3]; Range [5] [7]] initial_globals)
      as (g' & Hbuild & Harr & _).
    + constructor; [simpl; apply Hdigit; lia|].
      constructor; [simpl; apply Hdigit; lia|].
      constructor; [|constructor]. simpl.
      split; [apply Hdigit; lia|]. split; [apply Hdigit; lia|].
      unfold numeral_value, OFF_T_MAX. simpl. lia.
    + unfold sizeof_off_t, PTRDIFF_MAX. simpl. lia.
    + exists g'. split; [exact Hbuild|exact Harr].
Defined.

(** C7, as the code has it: the bad-sector array is empty when no list is
    given (a null argument leaves the initial globals alone); the empty
    string is read as one token without digits, which [strtoul] converts to
    0, so it yields the array holding sector 0. *)
Theorem absent_list_is_empty :
  (∀ g, build_bad_sector_list None g = Some g)
  ∧ (∀ path reserve_arg,
       ∃ g', init_callback path reserve_arg None initial_globals = Some g'
             ∧ bad_sector_count g' = 0 ∧ bad_sectors g' = [])
  ∧ (∀ g, build_bad_sector_list (Some ""%string) g
          = Some (set_bad_sectors g 1 [0])).
Proof.
  split; [done|]. split; [|done].
  intros path reserve_arg. unfold init_callback. simpl. by eexists.
Qed.

(** C7 as stated fails: the empty string yields a non-empty array. *)
Lemma empty_string_not_empty :
  ∃ g', build_bad_sector_list (Some ""%string) initial_globals = Some g'
        ∧ bad_sector_count g' = 1 ∧ bad_sectors g' = [0]
        ∧ bad_sectors g' ≠ [].
Proof. eexists. split; [reflexivity|]. simpl. done. Qed.

(** C8, as the code has it: nothing is rejected.  A list whose first
    character is neither white space, a sign, a digit nor a comma has a
    first token that [strtoul] does not convert: it is read as sector 0 and
    the rest of the string is ignored. *)
Theorem unparsable_token_is_sector_0 c rest g :
  isspace c = false → digit_of c = None →
  Ascii.eqb c "+" = false → Ascii.eqb c "-" = false →
  Ascii.eqb c "," = false →
  strtoul (String c rest) = (0, String c rest)
  ∧ get_sector_count (String c rest) = 1
  ∧ build_bad_sector_list (Some (String c rest)) g
    = Some (set_bad_sectors g 1 [0]).
Proof.
  intros Hsp Hdig Hplus Hminus Hcomma.
  assert (strtoul (String c rest) = (0, String c rest)) as Hstr.
  { unfold strtoul. simpl. rewrite Hsp. simpl. by rewrite Hminus, Hplus, Hdig. }
  assert (get_sector_count (String c rest) = 1) as Hcount.
  { by rewrite get_sector_count_unfold, Hstr, Hcomma, Hminus. }
  split; [done|]. split; [done|].
  unfold build_bad_sector_list.
  by rewrite Hcount, add_bad_sectors_unfold, Hstr, Hcomma, Hminus.
Qed.

Lemma unparsable_token_is_sector_0_witness :
  build_bad_sector_list (Some "x"%string) initial_globals
  = Some (set_bad_sectors initial_globals 1 [0]).
Proof.
  apply (unparsable_token_is_sector_0 "x" "" initial_globals); reflexivity.
Defined.

(** C8 as stated fails: the list [x] is accepted, as sector 0. *)
Lemma letter_token_accepted :
  ∃ g', build_bad_sector_list (Some "x"%string) initial_globals = Some g'
        ∧ bad_sector_count g' = 1 ∧ bad_sectors g' = [0].
Proof. eexists. split; [reflexivity|]. simpl. done. Qed.

(** The count computed for a range without its upper bound: the missing
    bound is read as 0 and [0 - 3 + 1] is taken in [size_t]. *)
Lemma get_sector_count_missing_bound :
  get_sector_count "3-"%string = 2 ^ 64 - 2.
Proof. reflexivity. Qed.



(** C10: the array built from a well-formed list keeps one cell per listed
    sector, duplicates included.  When a sector is listed at least twice and
    a reserve sector is available, the first repair succeeds, uses one
    reserve sector and deletes one cell: the sector is still found by the
    search loop.  When it is listed exactly twice, a second repair is what
    clears it: it succeeds only if another reserve sector is left, and uses
    it. *)
Theorem duplicate_entries_need_two_repairs t ts g0 sector :
  Forall term_ok (t :: ts) →
  Z.of_nat (length (spec_sectors (t :: ts))) * sizeof_off_t <= PTRDIFF_MAX →
  wf g0 → 0 < reserve_sectors g0 →
  (2 <= occurrences sector (spec_sectors (t :: ts)))%nat →
  ∃ g g1,
    build_bad_sector_list (Some (spec_string t ts)) g0 = Some g
    ∧ occurrences sector (bad_sectors g)
      = occurrences sector (spec_sectors (t :: ts))
    ∧ repair_bad_sector sector g = Some (0, g1)
    ∧ reserve_sectors g1 = reserve_sectors g0 - 1
    ∧ S (occurrences sector (bad_sectors g1))
      = occurrences sector (spec_sectors (t :: ts))
    ∧ sector ∈ bad_sectors g1
    ∧ (∃ i, scan_bad_sectors sector (bad_sectors g1) 0 (bad_sector_count g1)
            = Found i)
    ∧ (occurrences sector (spec_sectors (t :: ts)) = 2%nat →
       (reserve_sectors g1 = 0 →
        repair_bad_sector sector g1 = Some (-1, g1))
       ∧ (0 < reserve_sectors g1 →
          ∃ g2, repair_bad_sector sector g1 = Some (0, g2)
                ∧ (sector ∉ bad_sectors g2)
                ∧ reserve_sectors g2 = reserve_sectors g0 - 2)).
Proof.
  intros Hok Hlen Hwf0 Hres Hdup.
  rewrite build_bad_sector_list_spec by done.
  pose proof (build_bad_sector_list_wf t ts g0 Hok Hlen Hwf0) as Hwf.
  set (g := set_bad_sectors g0 _ _) in *.
  assert (sector ∈ bad_sectors g) as Hin
    by (apply occurrences_elem_of; simpl; lia).
  destruct (repair_bad_sector_succeeds sector g Hwf Hin Hres)
    as (k & Hk & Hrep & Hwf1).
  apply list_find_Some in Hk. destruct Hk as (Hk & _).
  pose proof (occurrences_delete _ _ _ Hk) as Hocc. simpl in Hocc.
  assert (sector ∈ bad_sectors (repaired k g)) as Hin1
    by (apply occurrences_elem_of; simpl; lia).
  exists g, (repaired k g). split_and!; [done|done|done|done|done|done| |].
  - rewrite scan_bad_sectors_wf by done.
    destruct (list_find_eq_elem _ _ Hin1) as [i ->]. by eexists.
  - intros Htwo. split.
    + intros Hzero. apply repair_bad_sector_fails; [done|by right].
    + intros Hpos.
      destruct (repair_bad_sector_succeeds sector _ Hwf1 Hin1 Hpos)
        as (k' & Hk' & Hrep' & _).
      apply list_find_Some in Hk'. destruct Hk' as (Hk' & _).
      pose proof (occurrences_delete _ _ _ Hk') as Hocc'.
      exists (repaired k' (repaired k g)). split_and!; [done| |simpl; lia].
      rewrite occurrences_elem_of. simpl in *. lia.
Qed.

Lemma duplicate_entries_need_two_repairs_witness :
  ∃ g g1 g2,
    build_bad_sector_list (Some "7,7"%string) example_reserve_2 = Some g
    ∧ occurrences 7 (bad_sectors g) = 2%nat
    ∧ repair_bad_sector 7 g = Some (0, g1)
    ∧ 7 ∈ bad_sectors g1
    ∧ repair_bad_sector 7 g1 = Some (0, g2)
    ∧ (7 ∉ bad_sectors g2)
    ∧ reserve_sectors g2 = 0.
Proof.
  destruct (duplicate_entries_need_two_repairs (Single [7]) [Single [7]]
              example_reserve_2 7)
    as (g & g1 & Hbuild & Hocc & Hrep & Hres & _ & Hin & _ & Htwo).
  - assert (numeral_ok [7]) as H7.
    { unfold numeral_ok, numeral_value. simpl.
      split; [discriminate|]. split; [|lia]. constructor; [lia|constructor]. }
    constructor; [exact H7|]. constructor; [exact H7|constructor].
  - unfold sizeof_off_t, PTRDIFF_MAX. simpl. lia.
  - unfold wf, sizeof_off_t, PTRDIFF_MAX. simpl. lia.
  - simpl. lia.
  - vm_compute. lia.
  - destruct Htwo as (_ & Hsecond); [reflexivity|].
    destruct Hsecond as (g2 & Hrep2 & Hout & Hres2);
      [rewrite Hres; simpl; lia|].
    exists g, g1, g2.
    split; [exact Hbuild|]. split; [exact Hocc|]. split; [exact Hrep|].
    split; [exact Hin|]. split; [exact Hrep2|]. split; [exact Hout|].
    exact Hres2.
Defined.

(** * Further properties of the code *)

(** ** Helper lemmas *)

Lemma get_disk_size_result st_size g len g1 :
  get_disk_size st_size g = (len, g1) → disk_size g1 = len.
Proof.
  unfold get_disk_size. destruct (Z.eqb_spec (disk_size g) 0) as [E|E].
  - by intros [= <- <-].
  - by intros [= <- <-].
Qed.

Lemma get_disk_size_again st_size g len :
  disk_size g = len → len ≠ 0 → get_disk_size st_size g = (len, g).
Proof.
  intros <- Hne. unfold get_disk_size.
  by destruct (Z.eqb_spec (disk_size g) 0).
Qed.

Lemma read_callback_in_disk st_size path size offset g len g1 :
  wf g → path = filepath g → get_disk_size st_size g = (len, g1) →
  0 <= offset < len → len + sector_size <= 2 ^ 63 → 0 <= size < 2 ^ 63 →
  ∃ bad : bool,
    read_callback st_size path size offset g
    = Some (if bad then Fault_EIO
            else Backing_pread (truncate_size len size offset) offset, g1)
    ∧ (bad = true ↔
         ∃ s, offset / sector_size <= s
                <= (offset + truncate_size len size offset + sector_size - 1)
                   / sector_size
              ∧ s ∈ bad_sectors g).
Proof.
  intros Hwf Hpath Hlen Hoff Hmax Hsize.
  destruct (get_disk_size_pair st_size g len g1 Hwf Hlen)
    as (Hwf1 & Hrange & Hc & Hb & Hr).
  assert (truncate_size len size offset = Z.min size (len - offset)) as Hn.
  { apply truncate_size_min; unfold sector_size in *; lia. }
  destruct (sector_bounds (truncate_size len size offset) offset)
    as (Hlo & Hhi); [lia|lia|unfold sector_size in *; lia|].
  rewrite (read_callback_served st_size path size offset g len g1)
    by (try done; rewrite wrap64u_small; lia).
  rewrite Hlo, Hhi.
  destruct (read_scan_wf (sector_loop (offset / sector_size)
              ((offset + truncate_size len size offset + sector_size - 1)
               / sector_size)) g1 Hwf1) as (b & -> & Hbs).
  exists b. split; [done|]. rewrite Hbs, Hb. unfold sector_loop.
  split; intros (s & Hs & Hbad); exists s; (split; [|done]).
  - apply elem_of_seqZ in Hs. lia.
  - apply elem_of_seqZ. lia.
Qed.

Lemma scan_digits_nonneg s : ∀ acc, 0 <= acc → 0 <= fst (scan_digits acc s).
Proof.
  induction s as [|c s IH]; intros acc Hacc; simpl; [done|].
  unfold digit_of. destruct (_ && _) eqn:E; simpl; [|done].
  apply andb_true_iff in E as [E1 E2].
  apply Z.leb_le in E1. apply IH. lia.
Qed.

Lemma strtoul_range s : 0 <= fst (strtoul s) < 2 ^ 64.
Proof.
  unfold strtoul. destruct (read_sign (skip_spaces s)) as [negative s'].
  destruct s' as [|c s'']; [simpl; lia|].
  destruct (digit_of c); [|simpl; lia].
  pose proof (scan_digits_nonneg (String c s'') 0) as Hnn.
  destruct (scan_digits 0 (String c s'')) as [acc endptr]. simpl in *.
  destruct (Z.ltb_spec ULONG_MAX acc); [unfold ULONG_MAX; lia|].
  destruct negative; [apply wrap64u_range|]. unfold ULONG_MAX in *. lia.
Qed.

(** ** [get_disk_size], offsets and lengths at the edges *)

(** X1: the size of the image is queried until it is not zero and then kept:
    once [get_disk_size] has returned a non-zero size, every later call
    returns that size whatever the file's size is by then; as long as it
    returned zero, the next call asks again. *)
Theorem disk_size_is_cached st_size st_size' g len g1 :
  get_disk_size st_size g = (len, g1) →
  (len ≠ 0 → get_disk_size st_size' g1 = (len, g1))
  ∧ (len = 0 →
     get_disk_size st_size' g1
     = (wrap64u st_size', set_disk_size g1 (wrap64u st_size'))).
Proof.
  intros Hlen. pose proof (get_disk_size_result _ _ _ _ Hlen) as Hd. split.
  - intros Hne. by apply get_disk_size_again.
  - intros ->. unfold get_disk_size at 1. by rewrite Hd.
Qed.

Lemma disk_size_is_cached_witness :
  get_disk_size 2000000 (snd (get_disk_size 1000000 initial_globals))
  = (1000000, snd (get_disk_size 1000000 initial_globals)).
Proof.
  apply (disk_size_is_cached 1000000 2000000 initial_globals 1000000
           (snd (get_disk_size 1000000 initial_globals)));
    [reflexivity|discriminate].
Defined.

(** X2: a negative offset is compared as an unsigned number, so it counts as
    past the end of the disk: both callbacks return 0, without a fault,
    without reading or writing the image and without touching the fault
    state. *)
Theorem negative_offset_returns_0 st_size path size offset g len g1 :
  wf g → path = filepath g → get_disk_size st_size g = (len, g1) →
  len <= 2 ^ 63 → - 2 ^ 63 <= offset < 0 →
  read_callback st_size path size offset g = Some (Return 0, g1)
  ∧ write_callback st_size path size offset g = Some (Return 0, g1)
  ∧ bad_sectors g1 = bad_sectors g
  ∧ reserve_sectors g1 = reserve_sectors g.
Proof.
  intros Hwf Hpath Hlen Hmax Hoff.
  destruct (get_disk_size_pair st_size g len g1 Hwf Hlen)
    as (_ & _ & _ & Hb & Hr).
  destruct (callback_past_end st_size path size offset g len g1)
    as (-> & ->); [done|done| |done].
  unfold wrap64u.
  replace (offset `mod` 2 ^ 64) with (offset + 2 ^ 64); [lia|].
  apply Z.mod_unique with (-1); lia.
Qed.

Lemma negative_offset_returns_0_witness :
  read_callback 1000000 "/disk.img" 512 (-512) example_globals
  = Some (Return 0, example_globals)
  ∧ write_callback 1000000 "/disk.img" 512 (-512) example_globals
    = Some (Return 0, example_globals).
Proof.
  destruct (negative_offset_returns_0 1000000 "/disk.img" 512 (-512)
              example_globals 1000000 example_globals example_globals_wf
              eq_refl eq_refl) as (Hr & Hw & _); [lia|lia|].
  split; [exact Hr|exact Hw].
Defined.

(** X3: a read of at least one byte inside the disk checks the sectors that
    hold its bytes and the sector after the last of them, whether or not the
    read ends on a sector boundary: it fails with [EIO] exactly when one of
    these is bad, so a bad sector makes every read of the sector before it
    fail. *)
Theorem read_checks_the_next_sector st_size path size offset g len g1 :
  wf g → path = filepath g → get_disk_size st_size g = (len, g1) →
  0 <= offset < len → len + sector_size <= 2 ^ 63 → 0 < size < 2 ^ 63 →
  let n := truncate_size len size offset in
  let last_byte := offset + n - 1 in
  offset <= last_byte < len
  ∧ (read_callback st_size path size offset g = Some (Fault_EIO, g1)
     ↔ ∃ s, offset / sector_size <= s <= last_byte / sector_size + 1
            ∧ s ∈ bad_sectors g)
  ∧ (last_byte / sector_size + 1 ∈ bad_sectors g →
     read_callback st_size path size offset g = Some (Fault_EIO, g1)).
Proof.
  intros Hwf Hpath Hlen Hoff Hmax Hsize n last_byte.
  destruct (get_disk_size_pair st_size g len g1 Hwf Hlen)
    as (_ & Hrange & _).
  assert (n = Z.min size (len - offset)) as Hn.
  { unfold n. apply truncate_size_min; unfold sector_size in *; lia. }
  assert ((offset + n + sector_size - 1) / sector_size
          = last_byte / sector_size + 1) as Hhi.
  { unfold last_byte, sector_size.
    replace (offset + n + 512 - 1) with (offset + n - 1 + 1 * 512) by lia.
    by rewrite Z.div_add by lia. }
  destruct (read_callback_in_disk st_size path size offset g len g1)
    as (b & Hread & Hb); [done|done|done|done|done|lia|].
  fold n in Hread, Hb. rewrite Hhi in Hb.
  assert (read_callback st_size path size offset g = Some (Fault_EIO, g1)
          ↔ ∃ s, offset / sector_size <= s <= last_byte / sector_size + 1
                 ∧ s ∈ bad_sectors g) as Hiff.
  { rewrite <- Hb, Hread. destruct b; split; intros; done. }
  split; [unfold last_byte; lia|]. split; [done|].
  intros Hbad. apply Hiff. exists (last_byte / sector_size + 1).
  split; [|done]. split; [|lia].
  assert (offset / sector_size <= last_byte / sector_size); [|lia].
  apply Z.div_le_mono; unfold last_byte, sector_size; lia.
Qed.

Lemma read_checks_the_next_sector_witness :
  read_callback 1000000 "/disk.img" 1 4700 example_globals
  = Some (Fault_EIO, example_globals).
Proof.
  assert (0 <= 4700 < 1000000) as H1 by lia.
  assert (1000000 + sector_size <= 2 ^ 63) as H2 by (unfold sector_size; lia).
  assert (0 < 1 < 2 ^ 63) as H3 by lia.
  pose proof (read_checks_the_next_sector 1000000 "/disk.img" 1 4700
                example_globals 1000000 example_globals example_globals_wf
                eq_refl eq_refl H1 H2 H3) as H.
  cbv zeta in H. destruct H as (_ & _ & Hnext).
  apply Hnext. apply list_elem_of_In. simpl. auto.
Defined.

(** ** What a write does to the bad-sector array *)

Lemma occurrences_delete_other (arr : list Z) k sector x :
  arr !! k = Some sector → x ≠ sector →
  occurrences x (delete k arr) = occurrences x arr.
Proof.
  intros Hk Hne. unfold occurrences. rewrite delete_take_drop.
  rewrite <- (take_drop_middle arr k sector Hk) at 3.
  rewrite !filter_app, filter_cons_False by (intros ->; done). done.
Qed.

Lemma bad_in_cons_not_bad s sectors g :
  s ∉ bad_sectors g → bad_in (s :: sectors) g = bad_in sectors g.
Proof. intros Hs. unfold bad_in. by rewrite filter_cons_False. Qed.

Lemma bad_in_cons_bad s sectors g :
  s ∈ bad_sectors g → bad_in (s :: sectors) g = s :: bad_in sectors g.
Proof. intros Hs. unfold bad_in. by rewrite filter_cons_True. Qed.

Lemma bad_in_repaired s k sectors g :
  bad_sectors g !! k = Some s → s ∉ sectors →
  bad_in sectors (repaired k g) = bad_in sectors g.
Proof.
  intros Hk Hs. unfold bad_in. simpl.
  induction sectors as [|x sectors IH]; [done|].
  apply not_elem_of_cons in Hs as [Hne Hs].
  assert (x ∈ delete k (bad_sectors g) ↔ x ∈ bad_sectors g) as Hx
    by (by apply elem_of_delete_other with s).
  destruct (decide (x ∈ bad_sectors g)) as [Hin|Hnin].
  - rewrite !filter_cons_True by tauto. by rewrite IH.
  - rewrite !filter_cons_False by tauto. by apply IH.
Qed.

(** The scan of a write over distinct sectors: it completes exactly when the
    reserve covers the bad sectors it meets, and then each of them has lost
    one cell. *)
Lemma write_scan_outcome sectors : ∀ g,
  wf g → NoDup sectors →
  (Z.of_nat (length (bad_in sectors g)) <= reserve_sectors g →
   ∃ g', write_scan sectors g = Some (false, g') ∧ wf g'
     ∧ reserve_sectors g'
       = reserve_sectors g - Z.of_nat (length (bad_in sectors g))
     ∧ bad_sector_count g'
       = bad_sector_count g - Z.of_nat (length (bad_in sectors g))
     ∧ filepath g' = filepath g ∧ disk_size g' = disk_size g
     ∧ (∀ x, x ∈ bad_in sectors g →
          S (occurrences x (bad_sectors g')) = occurrences x (bad_sectors g))
     ∧ (∀ x, x ∉ bad_in sectors g →
          occurrences x (bad_sectors g') = occurrences x (bad_sectors g)))
  ∧ (reserve_sectors g < Z.of_nat (length (bad_in sectors g)) →
     ∃ g', write_scan sectors g = Some (true, g')
           ∧ reserve_sectors g' = 0).
Proof.
  induction sectors as [|s sectors IH]; intros g Hwf Hnd.
  { change (bad_in [] g) with (@nil Z). split.
    - intros _. exists g. simpl. split_and!; try done; try lia.
      intros x Hx. by apply elem_of_nil in Hx.
    - simpl. destruct Hwf as (_ & _ & ? & _). lia. }
  apply NoDup_cons in Hnd as [Hs Hnd]. cbn [write_scan].
  rewrite scan_bad_sectors_wf by done.
  destruct (decide (s ∈ bad_sectors g)) as [Hin|Hnin].
  - destruct (list_find_eq_elem _ _ Hin) as [k0 Hk0]. rewrite Hk0.
    rewrite bad_in_cons_bad by done. cbn [length].
    destruct (Z.lt_ge_cases 0 (reserve_sectors g)) as [Hr|Hr].
    + destruct (repair_bad_sector_succeeds s g Hwf Hin Hr)
        as (k & Hk & -> & Hwf1). simpl.
      apply list_find_Some in Hk. destruct Hk as (Hk & _).
      pose proof (bad_in_repaired s k sectors g Hk Hs) as Hsame.
      destruct (IH (repaired k g) Hwf1 Hnd) as [IHok IHfail].
      rewrite Hsame in IHok, IHfail.
      assert (s ∉ bad_in sectors g) as Hs'.
      { unfold bad_in. rewrite list_elem_of_filter. tauto. }
      split.
      * intros Hle.
        destruct IHok as (g' & -> & Hwf' & Hres & Hcnt & Hfp & Hds & Ho1 & Ho2);
          [simpl; lia|].
        exists g'. simpl in *. split_and!; [done|done|lia|lia|done|done| |].
        -- intros x Hx. apply elem_of_cons in Hx as [->|Hx].
           ++ rewrite Ho2 by done. simpl. symmetry.
              by apply occurrences_delete.
           ++ rewrite Ho1 by done. simpl.
              apply occurrences_delete_other with s; [done|].
              intros ->. done.
        -- intros x Hx. apply not_elem_of_cons in Hx as [Hne Hx].
           rewrite Ho2 by done. simpl.
           by apply occurrences_delete_other with s.
      * intros Hlt. destruct IHfail as (g' & -> & Hzero); [simpl; lia|].
        by exists g'.
    + assert (reserve_sectors g = 0) as Hzero
        by (destruct Hwf as (_ & _ & ? & _); lia).
      rewrite repair_bad_sector_fails by auto. simpl. split; [lia|].
      intros _. by exists g.
  - rewrite list_find_eq_None by done.
    rewrite bad_in_cons_not_bad by done. by apply IH.
Qed.

Lemma elem_of_bad_in s sectors g :
  s ∈ bad_in sectors g ↔ s ∈ sectors ∧ s ∈ bad_sectors g.
Proof. unfold bad_in. rewrite list_elem_of_filter. tauto. Qed.

Lemma occurrences_elem_of_not x (arr : list Z) :
  x ∉ arr → occurrences x arr = O.
Proof.
  intros Hx. destruct (occurrences x arr) eqn:E; [done|].
  exfalso. apply Hx. apply occurrences_elem_of. lia.
Qed.

Lemma occurrences_NoDup x (arr : list Z) :
  NoDup arr → (occurrences x arr <= 1)%nat.
Proof.
  induction 1 as [|a arr Ha _ IH]; [unfold occurrences; simpl; lia|].
  unfold occurrences in *. destruct (decide (a = x)) as [->|Hne].
  - rewrite filter_cons_True by done. simpl.
    apply occurrences_elem_of_not in Ha. unfold occurrences in Ha. lia.
  - by rewrite filter_cons_False.
Qed.

Lemma write_callback_in_disk st_size path size offset g len g1 :
  wf g → path = filepath g → get_disk_size st_size g = (len, g1) →
  0 <= offset < len → len + sector_size <= 2 ^ 63 → 0 <= size < 2 ^ 63 →
  write_callback st_size path size offset g =
    '(aborted, g') ← write_scan
        (seqZ (offset / sector_size)
           ((offset + truncate_size len size offset + sector_size - 1)
            / sector_size - offset / sector_size + 1)) g1;
    Some (if aborted : bool then Fault_EIO
          else Backing_pwrite (truncate_size len size offset) offset, g').
Proof.
  intros Hwf Hpath Hlen Hoff Hmax Hsize.
  destruct (get_disk_size_pair st_size g len g1 Hwf Hlen)
    as (Hwf1 & Hrange & _).
  assert (truncate_size len size offset = Z.min size (len - offset)) as Hn.
  { apply truncate_size_min; unfold sector_size in *; lia. }
  destruct (sector_bounds (truncate_size len size offset) offset)
    as (Hlo & Hhi); [lia|lia|unfold sector_size in *; lia|].
  rewrite (write_callback_served st_size path size offset g len g1)
    by (try done; rewrite wrap64u_small; lia).
  by rewrite Hlo, Hhi.
Qed.

Lemma write_reached_image st_size st_size' path size offset g len g1 g' :
  wf g → path = filepath g → get_disk_size st_size g = (len, g1) →
  0 <= offset < len → len + sector_size <= 2 ^ 63 → 0 <= size < 2 ^ 63 →
  write_callback st_size path size offset g
  = Some (Backing_pwrite (truncate_size len size offset) offset, g') →
  wf g' ∧ path = filepath g' ∧ get_disk_size st_size' g' = (len, g')
  ∧ ∀ s, offset / sector_size <= s
           <= (offset + truncate_size len size offset + sector_size - 1)
              / sector_size →
         s ∈ bad_sectors g' ↔ (2 <= occurrences s (bad_sectors g))%nat.
Proof.
  intros Hwf Hpath Hlen Hoff Hmax Hsize Hwrite.
  destruct (get_disk_size_pair st_size g len g1 Hwf Hlen)
    as (Hwf1 & _ & Hc & Hb & Hr).
  pose proof (get_disk_size_result _ _ _ _ Hlen) as Hd1.
  pose proof (get_disk_size_fault_state st_size g) as (Hfp1 & _).
  rewrite Hlen in Hfp1. simpl in Hfp1.
  rewrite (write_callback_in_disk st_size path size offset g len g1)
    in Hwrite by done.
  set (range := seqZ _ _) in Hwrite.
  destruct (write_scan_outcome range g1 Hwf1 (NoDup_seqZ _ _))
    as [Hok Hfail].
  assert (write_scan range g1 = Some (false, g')) as Hscan.
  { destruct (write_scan range g1) as [[[] g2]|]; simpl in Hwrite;
      [done| |done]. by injection Hwrite as <-. }
  destruct (Z.le_gt_cases (Z.of_nat (length (bad_in range g1)))
              (reserve_sectors g1)) as [Hle|Hgt];
    [|destruct (Hfail ltac:(lia)) as (g3 & Hscan' & _); congruence].
  destruct (Hok Hle) as (g3 & Hscan' & Hwf' & _ & _ & Hfp & Hds & Ho1 & Ho2).
  rewrite Hscan in Hscan'. injection Hscan' as <-.
  split; [done|]. split; [congruence|].
  split; [apply get_disk_size_again; [congruence|lia]|].
  intros s Hs. rewrite occurrences_elem_of, <- Hb.
  destruct (decide (s ∈ bad_sectors g1)) as [Hin|Hnin].
  - rewrite <- (Ho1 s); [lia|].
    apply elem_of_bad_in. split; [|done]. apply elem_of_seqZ. lia.
  - rewrite (Ho2 s) by (rewrite elem_of_bad_in; tauto).
    rewrite (occurrences_elem_of_not s _ Hnin). lia.
Qed.

(** X5: a write inside the disk reaches the image exactly when the reserve
    covers the bad sectors of its range (each counted once).  It then uses
    one reserve sector and deletes one cell for each of them and leaves the
    other sectors alone.  Otherwise it fails with [EIO] once the reserve is
    used up. *)
Theorem write_succeeds_iff_reserve_covers
    st_size path size offset g len g1 :
  wf g → path = filepath g → get_disk_size st_size g = (len, g1) →
  0 <= offset < len → len + sector_size <= 2 ^ 63 → 0 <= size < 2 ^ 63 →
  let n := truncate_size len size offset in
  let lo := offset / sector_size in
  let hi := (offset + n + sector_size - 1) / sector_size in
  let k := Z.of_nat (length (bad_in (seqZ lo (hi - lo + 1)) g)) in
  (k <= reserve_sectors g →
   ∃ g', write_callback st_size path size offset g
         = Some (Backing_pwrite n offset, g')
     ∧ reserve_sectors g' = reserve_sectors g - k
     ∧ bad_sector_count g' = bad_sector_count g - k
     ∧ (∀ s, lo <= s <= hi → s ∈ bad_sectors g →
          S (occurrences s (bad_sectors g')) = occurrences s (bad_sectors g))
     ∧ (∀ s, ¬ (lo <= s <= hi ∧ s ∈ bad_sectors g) →
          occurrences s (bad_sectors g') = occurrences s (bad_sectors g)))
  ∧ (reserve_sectors g < k →
     ∃ g', write_callback st_size path size offset g = Some (Fault_EIO, g')
           ∧ reserve_sectors g' = 0).
Proof.
  intros Hwf Hpath Hlen Hoff Hmax Hsize n lo hi k.
  destruct (get_disk_size_pair st_size g len g1 Hwf Hlen)
    as (Hwf1 & _ & Hc & Hb & Hr).
  rewrite (write_callback_in_disk st_size path size offset g len g1)
    by done.
  fold n lo hi.
  assert (bad_in (seqZ lo (hi - lo + 1)) g1 = bad_in (seqZ lo (hi - lo + 1)) g)
    as Hsame by (unfold bad_in; by rewrite Hb).
  destruct (write_scan_outcome (seqZ lo (hi - lo + 1)) g1 Hwf1
              (NoDup_seqZ _ _)) as [Hok Hfail].
  rewrite Hsame, Hr in Hok, Hfail. fold k in Hok, Hfail. split.
  - intros Hle.
    destruct (Hok Hle) as (g' & -> & _ & Hres & Hcnt & _ & _ & Ho1 & Ho2).
    exists g'. simpl. rewrite Hb, Hc in *. split_and!; [done..| |].
    + intros s Hs Hbad. apply Ho1. apply elem_of_bad_in.
      split; [|done]. apply elem_of_seqZ. lia.
    + intros s Hs. apply Ho2. rewrite elem_of_bad_in, elem_of_seqZ.
      intros [? ?]. apply Hs. split; [lia|done].
  - intros Hlt. destruct (Hfail Hlt) as (g' & -> & Hzero). by exists g'.
Qed.

Lemma write_succeeds_iff_reserve_covers_witness :
  (∃ g', write_callback 1000000 "/disk.img" 512 4608 example_globals
         = Some (Backing_pwrite 512 4608, g')
     ∧ reserve_sectors g' = 0)
  ∧ (∃ g', write_callback 1000000 "/disk.img" 512 5120 example_globals
           = Some (Fault_EIO, g')
       ∧ reserve_sectors g' = 0).
Proof.
  assert (1000000 + sector_size <= 2 ^ 63) as H2 by (unfold sector_size; lia).
  assert (0 <= 512 < 2 ^ 63) as H3 by lia.
  split.
  - assert (0 <= 4608 < 1000000) as H1 by lia.
    pose proof (write_succeeds_iff_reserve_covers 1000000 "/disk.img" 512 4608
                  example_globals 1000000 example_globals example_globals_wf
                  eq_refl eq_refl H1 H2 H3) as H.
    cbv zeta in H. destruct H as [Hok _].
    destruct Hok as (g' & Hw & Hres & _); [vm_compute; discriminate|].
    exists g'. split; [exact Hw|exact Hres].
  - assert (0 <= 5120 < 1000000) as H1 by lia.
    pose proof (write_succeeds_iff_reserve_covers 1000000 "/disk.img" 512
                  5120 example_globals 1000000 example_globals
                  example_globals_wf eq_refl eq_refl H1 H2 H3) as H.
    cbv zeta in H. destruct H as [_ Hfail].
    destruct Hfail as (g' & Hw & Hres); [vm_compute; reflexivity|].
    exists g'. split; [exact Hw|exact Hres].
Defined.

(** X6: after a write that reached the image, a read of the same bytes
    fails exactly when a sector of the range was listed at least twice in the
    bad-sector array before the write; with an array without duplicates the
    read goes through to the image. *)
Theorem read_after_write st_size st_size' path size offset g len g1 g' :
  wf g → path = filepath g → get_disk_size st_size g = (len, g1) →
  0 <= offset < len → len + sector_size <= 2 ^ 63 → 0 <= size < 2 ^ 63 →
  let n := truncate_size len size offset in
  let lo := offset / sector_size in
  let hi := (offset + n + sector_size - 1) / sector_size in
  write_callback st_size path size offset g
  = Some (Backing_pwrite n offset, g') →
  ∃ bad : bool,
    read_callback st_size' path size offset g'
    = Some (if bad then Fault_EIO else Backing_pread n offset, g')
    ∧ (bad = true ↔
         ∃ s, lo <= s <= hi ∧ (2 <= occurrences s (bad_sectors g))%nat)
    ∧ (NoDup (bad_sectors g) → bad = false).
Proof.
  intros Hwf Hpath Hlen Hoff Hmax Hsize n lo hi Hwrite.
  destruct (write_reached_image st_size st_size' path size offset g len g1 g')
    as (Hwf' & Hpath' & Hlen' & Hocc); [done..|].
  destruct (read_callback_in_disk st_size' path size offset g' len g')
    as (b & Hread & Hbad); [done..|].
  fold n lo hi in Hread, Hbad, Hocc. exists b. split; [done|].
  assert (b = true ↔
            ∃ s, lo <= s <= hi ∧ (2 <= occurrences s (bad_sectors g))%nat)
    as Hiff.
  { rewrite Hbad. split; intros (s & Hs & H); exists s; (split; [done|]);
      by apply Hocc. }
  split; [done|]. intros Hnd. destruct b; [|done].
  destruct (proj1 Hiff eq_refl) as (s & _ & Hs).
  pose proof (occurrences_NoDup s _ Hnd). lia.
Qed.

Lemma read_after_write_witness :
  ∃ bad : bool,
    read_callback 2000000 "/disk.img" 512 4608 example_repaired
    = Some (if bad then Fault_EIO else Backing_pread 512 4608,
            example_repaired)
    ∧ bad = false.
Proof.
  assert (0 <= 4608 < 1000000) as H1 by lia.
  assert (1000000 + sector_size <= 2 ^ 63) as H2 by (unfold sector_size; lia).
  assert (0 <= 512 < 2 ^ 63) as H3 by lia.
  pose proof (read_after_write 1000000 2000000 "/disk.img" 512 4608
                example_globals 1000000 example_globals example_repaired
                example_globals_wf eq_refl eq_refl H1 H2 H3) as H.
  cbv zeta in H. destruct H as (bad & Hread & _ & Hnd); [reflexivity|].
  exists bad. split; [exact Hread|]. apply Hnd.
  simpl. repeat constructor; rewrite ?elem_of_cons, ?elem_of_nil; lia.
Defined.

(** X7: a request of length zero is checked like any other.  When the sector
    that holds [offset] is bad, a zero-length read fails with [EIO] instead
    of returning no bytes, and a zero-length write fails when no reserve
    sector is left and uses up at least one reserve sector otherwise. *)
Theorem zero_length_requests_are_checked st_size path offset g len g1 :
  wf g → path = filepath g → get_disk_size st_size g = (len, g1) →
  0 <= offset < len → len + sector_size <= 2 ^ 63 →
  offset / sector_size ∈ bad_sectors g →
  read_callback st_size path 0 offset g = Some (Fault_EIO, g1)
  ∧ ∃ r g', write_callback st_size path 0 offset g = Some (r, g')
      ∧ (reserve_sectors g = 0 → r = Fault_EIO)
      ∧ (0 < reserve_sectors g → reserve_sectors g' < reserve_sectors g).
Proof.
  intros Hwf Hpath Hlen Hoff Hmax Hbad.
  destruct (get_disk_size_pair st_size g len g1 Hwf Hlen)
    as (Hwf1 & Hrange & Hc & Hb & Hr).
  assert (0 <= 0 < 2 ^ 63) as Hsize by lia.
  assert (truncate_size len 0 offset = 0) as Hn.
  { rewrite truncate_size_min; unfold sector_size in *; lia. }
  assert (offset / sector_size
          <= (offset + 0 + sector_size - 1) / sector_size) as Hlohi.
  { apply Z.div_le_mono; unfold sector_size; lia. }
  split.
  - destruct (read_callback_in_disk st_size path 0 offset g len g1)
      as (b & -> & Hiff); [done..|].
    rewrite Hn in Hiff. destruct b; [done|].
    assert (false = true); [|done].
    apply Hiff. exists (offset / sector_size). split; [lia|done].
  - rewrite (write_callback_in_disk st_size path 0 offset g len g1) by done.
    rewrite Hn.
    set (range := seqZ _ _).
    assert (offset / sector_size ∈ bad_in range g1) as Hin.
    { apply elem_of_bad_in. rewrite Hb. split; [|done].
      apply elem_of_seqZ. lia. }
    assert (0 < Z.of_nat (length (bad_in range g1))) as Hk.
    { destruct (bad_in range g1); [by apply elem_of_nil in Hin|simpl; lia]. }
    destruct (write_scan_outcome range g1 Hwf1 (NoDup_seqZ _ _))
      as [Hok Hfail].
    destruct (Z.le_gt_cases (Z.of_nat (length (bad_in range g1)))
                (reserve_sectors g1)) as [Hle|Hgt].
    + destruct (Hok Hle) as (g' & -> & _ & Hres & _). simpl.
      eexists _, g'. split; [done|]. split; lia.
    + destruct (Hfail ltac:(lia)) as (g' & -> & Hzero). simpl.
      eexists _, g'. split; [done|]. split; [done|lia].
Qed.

Lemma zero_length_requests_are_checked_witness :
  read_callback 1000000 "/disk.img" 0 5300 example_globals
  = Some (Fault_EIO, example_globals).
Proof.
  assert (0 <= 5300 < 1000000) as H1 by lia.
  assert (1000000 + sector_size <= 2 ^ 63) as H2 by (unfold sector_size; lia).
  destruct (zero_length_requests_are_checked 1000000 "/disk.img" 5300
              example_globals 1000000 example_globals example_globals_wf
              eq_refl eq_refl H1 H2) as [Hread _].
  - apply list_elem_of_In. simpl. auto.
  - exact Hread.
Defined.

(** ** Initialisation and the other callbacks *)

(** X4: after [init_callback] with a well-formed list, whatever the reserve
    argument, [bad_sector_count] is the number of cells of the array, and
    every sequence of read, write and repair requests runs to its end
    without an access outside the array and keeps it so. *)
Theorem well_formed_list_sessions_defined t ts path reserve_arg rqs :
  Forall term_ok (t :: ts) →
  Z.of_nat (length (spec_sectors (t :: ts))) * sizeof_off_t <= PTRDIFF_MAX →
  ∃ g g',
    init_callback path reserve_arg (Some (spec_string t ts)) initial_globals
    = Some g
    ∧ wf g ∧ session rqs g = Some g' ∧ wf g'.
Proof.
  intros Hok Hlen. unfold init_callback.
  set (g0 := set_reserve_sectors _ _).
  assert (wf g0) as Hwf0.
  { unfold wf, g0, sizeof_off_t, PTRDIFF_MAX. simpl.
    split; [done|]. split; [lia|]. split; [|lia].
    destruct reserve_arg as [arg|]; [apply strtoul_range|lia]. }
  rewrite build_bad_sector_list_spec by done.
  pose proof (build_bad_sector_list_wf t ts g0 Hok Hlen Hwf0) as Hwf.
  destruct (session_counted_wf rqs _ Hwf) as (n & g' & Hrun & Hwf' & _).
  eexists _, g'. split; [done|]. split; [done|].
  split; [by rewrite session_erase, Hrun|done].
Qed.

Lemma well_formed_list_sessions_defined_witness :
  ∃ g g',
    init_callback "/disk.img" (Some "1"%string) (Some "7,7"%string)
      initial_globals = Some g
    ∧ wf g
    ∧ session [Write 1000000 "/disk.img" 512 3584;
               Read 1000000 "/disk.img" 512 3584] g = Some g'
    ∧ wf g'.
Proof.
  apply (well_formed_list_sessions_defined (Single [7]) [Single [7]]
           "/disk.img" (Some "1"%string)
           [Write 1000000 "/disk.img" 512 3584;
            Read 1000000 "/disk.img" 512 3584]).
  - assert (numeral_ok [7]) as H7.
    { unfold numeral_ok, numeral_value. simpl.
      split; [discriminate|]. split; [|lia]. constructor; [lia|constructor]. }
    constructor; [exact H7|]. constructor; [exact H7|constructor].
  - unfold sizeof_off_t, PTRDIFF_MAX. simpl. lia.
Defined.

(** X8: [getattr_callback] reports the size the image file has at the time
    of the call, while the read and write callbacks keep the size cached by
    [get_disk_size].  When the file has grown, the bytes between the cached
    size and the reported size cannot be reached: both callbacks return 0
    there. *)
Theorem getattr_size_is_not_the_cached_size file_size path size offset g :
  wf g → path = filepath g → path ≠ "/"%string →
  disk_size g ≠ 0 → disk_size g <= offset < file_size → file_size < 2 ^ 63 →
  getattr_callback file_size path g
  = (0, {| st_mode := Z.lor S_IFREG 511; st_nlink := 1;
           st_size := file_size |})
  ∧ read_callback file_size path size offset g = Some (Return 0, g)
  ∧ write_callback file_size path size offset g = Some (Return 0, g).
Proof.
  intros Hwf Hpath Hroot Hcached Hoff Hmax. split.
  - unfold getattr_callback.
    rewrite (proj2 (String.eqb_neq _ _) Hroot).
    by rewrite Hpath, String.eqb_refl.
  - apply (callback_past_end file_size path size offset g (disk_size g) g);
      [done|by apply get_disk_size_again|].
    destruct Hwf as (_ & _ & _ & Hd). rewrite wrap64u_small; lia.
Qed.

Lemma getattr_size_is_not_the_cached_size_witness :
  getattr_callback 2000000 "/disk.img" example_globals
  = (0, {| st_mode := Z.lor S_IFREG 511; st_nlink := 1;
           st_size := 2000000 |})
  ∧ read_callback 2000000 "/disk.img" 512 1500000 example_globals
    = Some (Return 0, example_globals).
Proof.
  destruct (getattr_size_is_not_the_cached_size 2000000 "/disk.img" 512
              1500000 example_globals example_globals_wf eq_refl)
    as (Hattr & Hread & _).
  - discriminate.
  - discriminate.
  - simpl. lia.
  - lia.
  - split; [exact Hattr|exact Hread].
Defined.

(** ** The paths set by [init_callback] *)

Lemma char_at_beyond s : ∀ i,
  (String.length s <= i)%nat → char_at s i = Ascii.zero.
Proof.
  unfold char_at. induction s as [|c s IH]; intros i Hi; [by destruct i|].
  destruct i as [|i]; simpl in *; [lia|]. apply IH. lia.
Qed.

Lemma string_from_0 s : string_from s 0 = s.
Proof. by destruct s. Qed.

Lemma string_from_unfold s : ∀ i,
  (i < String.length s)%nat →
  string_from s i = String (char_at s i) (string_from s (S i)).
Proof.
  induction s as [|c s IH]; intros i Hi; simpl in Hi; [lia|].
  destruct i as [|i]; [simpl; by rewrite string_from_0|].
  simpl. rewrite IH by lia. done.
Qed.

Lemma char_at_string_from s : ∀ k i,
  char_at (string_from s k) i = char_at s (k + i).
Proof.
  induction s as [|c s IH]; intros k i.
  - destruct k; simpl; by destruct i.
  - destruct k as [|k]; [done|]. simpl. apply IH.
Qed.

Lemma string_from_suffix s : ∀ k,
  ∃ dir, s = (dir ++ string_from s k)%string.
Proof.
  induction s as [|c s IH]; intros k.
  - exists EmptyString. by destruct k.
  - destruct k as [|k]; [by exists EmptyString|].
    destruct (IH k) as [dir Hdir]. exists (String c dir).
    simpl. by rewrite <- Hdir.
Qed.

Lemma scan_back_spec s pos :
  (scan_back s pos <= pos)%nat
  ∧ (∀ j, (scan_back s pos < j <= pos)%nat → char_at s j ≠ "/"%char)
  ∧ (scan_back s pos = O ∨ char_at s (scan_back s pos) = "/"%char).
Proof.
  induction pos as [|p (IH1 & IH2 & IH3)]; simpl.
  - split; [lia|]. split; [lia|by left].
  - destruct (Ascii.eqb_spec (char_at s (S p)) "/") as [E|E].
    + split; [lia|]. split; [lia|by right].
    + split; [lia|]. split; [|done].
      intros j Hj. destruct (decide (j = S p)) as [->|Hne]; [done|].
      apply IH2. lia.
Qed.

Lemma store_byte_length mem idx c mem' :
  store_byte mem idx c = Some mem' → length mem' = length mem.
Proof.
  unfold store_byte. destruct (_ && _); [|done].
  intros [= <-]. apply length_insert.
Qed.

Lemma strcpy_length src : ∀ mem dst mem',
  strcpy mem dst src = Some mem' → length mem' = length mem.
Proof.
  induction src as [|c src IH]; intros mem dst mem'; simpl.
  - apply store_byte_length.
  - destruct (store_byte mem dst c) as [mem1|] eqn:E; simpl; [|done].
    intros H. apply IH in H. apply store_byte_length in E. congruence.
Qed.

Lemma strcpy_overflow src : ∀ (mem : bytes) dst,
  Z.of_nat (length mem) <= dst + Z.of_nat (String.length src) →
  strcpy mem dst src = None.
Proof.
  induction src as [|c src IH]; intros mem dst Hlen; simpl in *.
  - unfold store_byte.
    destruct (Z.ltb_spec dst (Z.of_nat (length mem))); [lia|].
    by rewrite andb_false_r.
  - destruct (store_byte mem dst c) as [mem1|] eqn:E; simpl; [|done].
    apply store_byte_length in E. apply IH. lia.
Qed.

Lemma malloc_bytes_length n :
  0 <= n → Z.of_nat (length (malloc_bytes n)) <= n.
Proof.
  intros Hn. unfold malloc_bytes.
  destruct (PTRDIFF_MAX <? wrap64u n); [simpl; lia|].
  rewrite length_replicate. pose proof (wrap64u_range n).
  unfold wrap64u in *. pose proof (Z.mod_le n (2 ^ 64)). lia.
Qed.

Lemma init_paths_cases s :
  let pos := scan_back s (pred (String.length s)) in
  (char_at s pos = "/"%char
   ∧ (∀ j, (pos < j)%nat → char_at s j ≠ "/"%char)
   ∧ (pos < String.length s)%nat
   ∧ init_paths s = Some (string_from s pos, string_from s (S pos)))
  ∨ ((∀ i, char_at s i ≠ "/"%char) ∧ init_paths s = None).
Proof.
  intros pos. unfold init_paths.
  destruct (String.length s) as [|last] eqn:Hlen.
  { right. split; [|done]. intros i. rewrite char_at_beyond by lia. done. }
  simpl in pos. fold pos.
  destruct (scan_back_spec s last) as (Hle & Hafter & Hat).
  fold pos in Hle, Hafter, Hat.
  assert (∀ j, (pos < j)%nat → char_at s j ≠ "/"%char) as Hall.
  { intros j Hj. destruct (Nat.le_gt_cases j last); [apply Hafter; lia|].
    rewrite char_at_beyond by lia. done. }
  destruct (Ascii.eqb_spec (char_at s pos) "/") as [E|E].
  - left. split_and!; [done|done|lia|done].
  - right. destruct Hat as [Hzero|]; [|done].
    split.
    + intros i. destruct i as [|i]; [by rewrite <- Hzero|].
      apply Hall. lia.
    + destruct (strcpy (malloc_bytes _) 0 "/") as [mem1|] eqn:E1; simpl;
        [|done].
      apply strcpy_length in E1.
      pose proof (malloc_bytes_length (Z.of_nat (S last) + 1)).
      rewrite strcpy_overflow; [done|]. rewrite Hlen. lia.
Qed.

(** X9: when the image path contains a slash, [init_callback] sets
    [filepath] to the part of the image path from its last slash on and
    [filename] to what follows that slash: [filepath] is a slash followed by
    [filename], and [filename] contains no slash. *)
Theorem init_paths_with_slash disk_image i :
  char_at disk_image i = "/"%char →
  ∃ filename dir,
    init_paths disk_image = Some (String "/" filename, filename)
    ∧ disk_image = (dir ++ String "/" filename)%string
    ∧ ∀ j, char_at filename j ≠ "/"%char.
Proof.
  intros Hi.
  destruct (init_paths_cases disk_image)
    as [(Hpos & Hafter & Hlt & ->)|(Hno & _)]; [|by destruct (Hno i)].
  set (pos := scan_back disk_image (pred (String.length disk_image))) in *.
  exists (string_from disk_image (S pos)).
  destruct (string_from_suffix disk_image pos) as [dir Hdir].
  exists dir. rewrite string_from_unfold, Hpos in * by done.
  split; [done|]. split; [done|].
  intros j. rewrite char_at_string_from. apply Hafter. lia.
Qed.

Lemma init_paths_with_slash_witness :
  ∃ filename dir,
    init_paths "/var/images/disk.img" = Some (String "/" filename, filename)
    ∧ "/var/images/disk.img"%string = (dir ++ String "/" filename)%string
    ∧ ∀ j, char_at filename j ≠ "/"%char.
Proof.
  apply (init_paths_with_slash "/var/images/disk.img" 4). reflexivity.
Defined.

(** X10: when the image path contains no slash, [init_callback] copies a
    slash and the image path into a buffer of [strlen + 1] bytes, which is
    one byte short: the second [strcpy] writes past the end of the buffer
    and no value of [filepath] is defined. *)
Theorem init_paths_without_slash disk_image :
  (∀ i, char_at disk_image i ≠ "/"%char) →
  init_paths disk_image = None
  ∧ ∀ mem : bytes,
      Z.of_nat (length mem) <= Z.of_nat (String.length disk_image) + 1 →
      strcpy mem 1 disk_image = None.
Proof.
  intros Hno. split.
  - destruct (init_paths_cases disk_image) as [(Hpos & _)|(_ & H)]; [|done].
    by destruct (Hno _ Hpos).
  - intros mem Hmem. apply strcpy_overflow. lia.
Qed.

Lemma init_paths_without_slash_witness : init_paths "disk.img" = None.
Proof.
  apply (init_paths_without_slash "disk.img").
  intros i. do 8 (destruct i as [|i]; [discriminate|]).
  rewrite char_at_beyond by (simpl; lia). discriminate.
Defined.

Lemma init_paths_Some disk_image path name :
  init_paths disk_image = Some (path, name) →
  path = String "/" name ∧ ∀ j, char_at name j ≠ "/"%char.
Proof.
  intros Hinit.
  destruct (init_paths_cases disk_image)
    as [(Hpos & Hafter & Hlt & H)|(_ & H)]; [|congruence].
  rewrite Hinit in H. injection H as -> ->.
  rewrite string_from_unfold, Hpos by done. split; [done|].
  intros j. rewrite char_at_string_from. apply Hafter. lia.
Qed.

(** X11: the directory listing and the other callbacks agree on the name of
    the image.  With the paths set by [init_callback] and a non-empty file
    name, the one entry that [readdir_callback] lists besides [.] and [..]
    is, after a slash, the path that [getattr_callback] reports as a regular
    file of the image's size and that the read and write callbacks accept
    (they do not answer [-ENOENT]). *)
Theorem listed_entry_is_served
    disk_image path filename file_size g name st_size size offset :
  init_paths disk_image = Some (path, filename) → filepath g = path →
  filename ≠ EmptyString →
  name ∈ snd (readdir_callback filename) →
  name ≠ "."%string → name ≠ ".."%string →
  getattr_callback file_size (String "/" name) g
  = (0, {| st_mode := Z.lor S_IFREG 511; st_nlink := 1;
           st_size := file_size |})
  ∧ read_callback st_size (String "/" name) size offset g
    ≠ Some (Return (- ENOENT), g)
  ∧ write_callback st_size (String "/" name) size offset g
    ≠ Some (Return (- ENOENT), g).
Proof.
  intros Hinit Hfp Hname Hin Hdot Hdots.
  apply init_paths_Some in Hinit as [-> _].
  simpl in Hin. rewrite !elem_of_cons, elem_of_nil in Hin.
  destruct Hin as [->|[->|[->|[]]]]; [done|done|].
  split_and!.
  - unfold getattr_callback. rewrite Hfp, String.eqb_refl.
    destruct filename as [|c r]; [done|]. done.
  - unfold read_callback. rewrite Hfp, String.eqb_refl.
    destruct (get_disk_size st_size g) as [len g1].
    destruct (len <=? wrap64u offset); [done|].
    destruct (read_scan _ g1) as [[]|]; done.
  - unfold write_callback. rewrite Hfp, String.eqb_refl.
    destruct (get_disk_size st_size g) as [len g1].
    destruct (len <=? wrap64u offset); [done|].
    destruct (write_scan _ g1) as [[[] g2]|]; done.
Qed.

Lemma listed_entry_is_served_witness :
  getattr_callback 1000000 "/disk.img" example_globals
  = (0, {| st_mode := Z.lor S_IFREG 511; st_nlink := 1;
           st_size := 1000000 |}).
Proof.
  destruct (listed_entry_is_served "/var/images/disk.img" "/disk.img"
              "disk.img" 1000000 example_globals "disk.img" 1000000 512 0)
    as (Hattr & _).
  - reflexivity.
  - reflexivity.
  - discriminate.
  - apply list_elem_of_In. simpl. auto.
  - discriminate.
  - discriminate.
  - exact Hattr.
Defined.

(** ** Text around a well-formed list *)

Lemma numeral_string_append ds r1 r2 :
  (numeral_string ds r1 ++ r2)%string = numeral_string ds (r1 ++ r2)%string.
Proof. induction ds as [|d ds IH]; simpl; [done|]. by rewrite IH. Qed.

Lemma term_string_append t r1 r2 :
  (term_string t r1 ++ r2)%string = term_string t (r1 ++ r2)%string.
Proof.
  destruct t as [n|n m]; simpl; rewrite numeral_string_append; [done|].
  simpl. by rewrite numeral_string_append.
Qed.

Lemma spec_string_append ts : ∀ t rest,
  (spec_string t ts ++ rest)%string = spec_string_then t ts rest.
Proof.
  induction ts as [|t' ts IH]; intros t rest; simpl.
  - by rewrite term_string_append.
  - rewrite term_string_append. simpl. by rewrite IH.
Qed.

Lemma ends_list_stops rest : ends_list rest → stops rest.
Proof. destruct rest as [|c r]; [done|]. by intros (? & _). Qed.

Lemma get_sector_count_term_end t rest :
  term_ok t → ends_list rest →
  get_sector_count (term_string t rest) = Z.of_nat (length (term_sectors t)).
Proof.
  intros Hok Hend. pose proof (ends_list_stops rest Hend) as Hstop.
  rewrite term_sectors_length by done.
  destruct t as [n|n m]; simpl in *.
  - rewrite get_sector_count_unfold, strtoul_numeral by done.
    destruct rest as [|c r]; [done|].
    destruct Hend as (_ & -> & ->). done.
  - destruct Hok as (Hn & Hm & Hle).
    pose proof (term_value_range n Hn). pose proof (term_value_range m Hm).
    pose proof (numeral_value_nonneg n Hn).
    rewrite get_sector_count_unfold, strtoul_numeral by done. simpl.
    rewrite strtoul_numeral by done.
    rewrite !wrap64s_small by lia.
    rewrite (wrap64u_small (_ - _ + 1)) by lia.
    destruct rest as [|c r]; [done|].
    destruct Hend as (_ & -> & _). done.
Qed.

Lemma add_bad_sectors_term_end t rest (filled todo : block) :
  term_ok t → ends_list rest →
  (length (term_sectors t) <= length todo)%nat →
  add_bad_sectors (term_string t rest) (Z.of_nat (length filled))
    (filled ++ todo)
  = Some (filled ++ (Some <$> term_sectors t)
          ++ drop (length (term_sectors t)) todo).
Proof.
  intros Hok Hend Hlen. pose proof (ends_list_stops rest Hend) as Hstop.
  destruct rest as [|c r].
  { by apply add_bad_sectors_term. }
  destruct Hend as (_ & Hcomma & Hdash).
  (* the text before a comma is parsed alike up to the test of the comma *)
  destruct (add_bad_sectors_term t filled todo Hok Hlen) as (Hlast & _).
  rewrite <- Hlast. clear Hlast.
  destruct t as [n|n m]; simpl in *.
  - pose proof (term_value_range n Hok).
    rewrite !add_bad_sectors_unfold, !strtoul_numeral by done.
    simpl. by rewrite Hcomma, Hdash.
  - destruct Hok as (Hn & Hm & Hle).
    rewrite !add_bad_sectors_unfold, !strtoul_numeral by done. simpl.
    rewrite ?strtoul_numeral by done. by rewrite Hcomma.
Qed.

Lemma get_sector_count_then ts : ∀ t rest,
  Forall term_ok (t :: ts) →
  Z.of_nat (length (spec_sectors (t :: ts))) < 2 ^ 64 →
  (ends_list rest →
   get_sector_count (spec_string_then t ts rest)
   = Z.of_nat (length (spec_sectors (t :: ts))))
  ∧ get_sector_count (spec_string_then t ts (String "," rest))
    = wrap64u (Z.of_nat (length (spec_sectors (t :: ts)))
               + get_sector_count rest).
Proof.
  induction ts as [|t' ts IH]; intros t rest Hok Hlen;
    pose proof (Forall_inv Hok) as Ht;
    unfold spec_sectors in *; rewrite fmap_cons in *; cbn [concat] in *;
    rewrite length_app in *.
  - simpl in *. rewrite Nat.add_0_r in *. split.
    + intros Hend. by apply get_sector_count_term_end.
    + by apply get_sector_count_term.
  - cbn [spec_string_then].
    destruct (get_sector_count_term t Ht) as (_ & Hcomma); [lia|].
    destruct (IH t' rest) as [IHend IHcomma];
      [by apply Forall_inv_tail in Hok|lia|].
    rewrite !Hcomma. split.
    + intros Hend. rewrite IHend by done. rewrite wrap64u_small by lia. lia.
    + rewrite IHcomma. unfold wrap64u.
      rewrite Z.add_mod_idemp_r by lia. f_equal. lia.
Qed.

Lemma add_bad_sectors_then ts : ∀ t rest (filled todo : block),
  Forall term_ok (t :: ts) →
  (length (spec_sectors (t :: ts)) <= length todo)%nat →
  let mem' := filled ++ (Some <$> spec_sectors (t :: ts))
              ++ drop (length (spec_sectors (t :: ts))) todo in
  (ends_list rest →
   add_bad_sectors (spec_string_then t ts rest) (Z.of_nat (length filled))
     (filled ++ todo) = Some mem')
  ∧ add_bad_sectors (spec_string_then t ts (String "," rest))
      (Z.of_nat (length filled)) (filled ++ todo)
    = add_bad_sectors rest
        (Z.of_nat (length filled)
         + Z.of_nat (length (spec_sectors (t :: ts)))) mem'.
Proof.
  induction ts as [|t' ts IH]; intros t rest filled todo Hok Hlen;
    pose proof (Forall_inv Hok) as Ht;
    unfold spec_sectors in *; rewrite fmap_cons in *; cbn [concat] in *;
    rewrite length_app in *.
  - simpl in *. rewrite Nat.add_0_r, app_nil_r in *. split.
    + intros Hend. by apply add_bad_sectors_term_end.
    + by apply add_bad_sectors_term.
  - cbn [spec_string_then]. cbv zeta.
    destruct (add_bad_sectors_term t filled todo Ht) as (_ & Hcomma); [lia|].
    rewrite !Hcomma.
    replace (Z.of_nat (length filled) + Z.of_nat (length (term_sectors t)))
      with (Z.of_nat (length (filled ++ (Some <$> term_sectors t))))
      by (rewrite length_app, length_fmap; lia).
    rewrite (app_assoc filled).
    destruct (IH t' rest (filled ++ (Some <$> term_sectors t))
                (drop (length (term_sectors t)) todo)) as [IHend IHcomma];
      [by apply Forall_inv_tail in Hok|rewrite length_drop; lia|].
    cbv zeta in IHend, IHcomma.
    rewrite drop_drop, <- !app_assoc in IHend, IHcomma.
    rewrite fmap_app, <- !app_assoc. split.
    + intros Hend. by rewrite IHend.
    + rewrite IHcomma. f_equal.
      rewrite length_app, length_fmap. lia.
Qed.

(** X12: text after the last term is ignored when it starts with a
    character that is neither a digit, a comma nor a dash (a letter, a space,
    a line end): the list is parsed as if it ended there. *)
Theorem trailing_text_is_ignored t ts c rest g :
  Forall term_ok (t :: ts) →
  Z.of_nat (length (spec_sectors (t :: ts))) * sizeof_off_t <= PTRDIFF_MAX →
  digit_of c = None → Ascii.eqb c "," = false → Ascii.eqb c "-" = false →
  build_bad_sector_list (Some (spec_string t ts ++ String c rest)%string) g
  = Some (set_bad_sectors g (Z.of_nat (length (spec_sectors (t :: ts))))
            (spec_sectors (t :: ts))).
Proof.
  intros Hok Hlen Hdig Hcomma Hdash.
  assert (ends_list (String c rest)) as Hend by done.
  rewrite spec_string_append. unfold build_bad_sector_list.
  destruct (get_sector_count_then ts t (String c rest) Hok) as [Hcount _];
    [unfold sizeof_off_t, PTRDIFF_MAX in Hlen; lia|].
  rewrite Hcount by done.
  unfold malloc_array. rewrite malloc_cells_small by lia. rewrite Nat2Z.id.
  destruct (add_bad_sectors_then ts t (String c rest) []
              (replicate (length (spec_sectors (t :: ts))) None) Hok)
    as [H _]; [rewrite length_replicate; lia|].
  change (Z.of_nat (length [])) with 0 in H. rewrite !app_nil_l in H.
  rewrite H by done. simpl.
  rewrite drop_ge by (rewrite length_replicate; lia).
  by rewrite app_nil_r, contents_written.
Qed.

Lemma trailing_text_is_ignored_witness :
  build_bad_sector_list (Some "1,3,5-7 # spare"%string) initial_globals
  = Some (set_bad_sectors initial_globals 5 [1; 3; 5; 6; 7]).
Proof.
  assert (∀ d, 0 <= d <= 9 → numeral_ok [d]) as Hdigit.
  { intros d Hd. unfold numeral_ok, numeral_value. simpl.
    split; [discriminate|]. split; [|lia].
    constructor; [exact Hd|constructor]. }
  apply (trailing_text_is_ignored (Single [1]) [Single [3]; Range [5] [7]]
           " " "# spare" initial_globals).
  - constructor; [simpl; apply Hdigit; lia|].
    constructor; [simpl; apply Hdigit; lia|].
    constructor; [|constructor]. simpl.
    split; [apply Hdigit; lia|]. split; [apply Hdigit; lia|].
    unfold numeral_value, OFF_T_MAX. simpl. lia.
  - unfold sizeof_off_t, PTRDIFF_MAX. simpl. lia.
  - reflexivity.
  - reflexivity.
  - reflexivity.
Defined.

Lemma strtoul_comma rest : strtoul (String "," rest) = (0, String "," rest).
Proof. reflexivity. Qed.

(** X13: an empty token is read as sector 0.  A comma after the last term
    of a well-formed list adds sector 0 to the array, and so does a second
    comma between two well-formed lists. *)
Theorem empty_token_is_sector_0 t ts g :
  Forall term_ok (t :: ts) →
  (Z.of_nat (length (spec_sectors (t :: ts))) + 1) * sizeof_off_t
    <= PTRDIFF_MAX →
  build_bad_sector_list (Some (spec_string t ts ++ ",")%string) g
  = Some (set_bad_sectors g
            (Z.of_nat (length (spec_sectors (t :: ts))) + 1)
            (spec_sectors (t :: ts) ++ [0]))
  ∧ ∀ t' ts',
      Forall term_ok (t' :: ts') →
      (Z.of_nat (length (spec_sectors (t :: ts))) + 1
       + Z.of_nat (length (spec_sectors (t' :: ts')))) * sizeof_off_t
        <= PTRDIFF_MAX →
      build_bad_sector_list
        (Some (spec_string t ts ++ ",," ++ spec_string t' ts')%string) g
      = Some (set_bad_sectors g
                (Z.of_nat (length (spec_sectors (t :: ts))) + 1
                 + Z.of_nat (length (spec_sectors (t' :: ts'))))
                (spec_sectors (t :: ts) ++ [0] ++ spec_sectors (t' :: ts'))).
Proof.
  intros Hok Hlen. unfold sizeof_off_t, PTRDIFF_MAX in *.
  set (n := length (spec_sectors (t :: ts))) in *. split.
  - rewrite spec_string_append. unfold build_bad_sector_list.
    destruct (get_sector_count_then ts t EmptyString Hok) as [_ ->];
      [fold n; lia|].
    fold n. change (get_sector_count "") with 1.
    rewrite wrap64u_small by lia.
    unfold malloc_array.
    rewrite malloc_cells_small by (unfold sizeof_off_t, PTRDIFF_MAX; lia).
    replace (Z.to_nat (Z.of_nat n + 1)) with (S n) by lia.
    destruct (add_bad_sectors_then ts t EmptyString [] (replicate (S n) None)
                Hok) as [_ H]; [rewrite length_replicate; fold n; lia|].
    change (Z.of_nat (length [])) with 0 in H. rewrite !app_nil_l in H.
    fold n in H. rewrite H. clear H.
    rewrite drop_replicate. replace (S n - n)%nat with 1%nat by lia.
    rewrite add_bad_sectors_unfold. simpl.
    replace (Z.of_nat n)
      with (Z.of_nat (length (Some <$> spec_sectors (t :: ts))))
      by (by rewrite length_fmap).
    rewrite store_next. simpl. change (wrap64s 0) with 0.
    change [Some 0] with (Some <$> [0]).
    by rewrite <- fmap_app, contents_written.
  - intros t' ts' Hok' Hlen'.
    set (n' := length (spec_sectors (t' :: ts'))) in *.
    rewrite spec_string_append. unfold build_bad_sector_list. simpl.
    destruct (get_sector_count_then ts t (String "," (spec_string t' ts'))
                Hok) as [_ ->]; [fold n; lia|].
    fold n. rewrite (get_sector_count_unfold (String "," _)), strtoul_comma.
    simpl. rewrite get_sector_count_spec by (try done; fold n'; lia).
    fold n'. rewrite !wrap64u_small by (rewrite ?wrap64u_small; lia).
    unfold malloc_array.
    rewrite malloc_cells_small by (unfold sizeof_off_t, PTRDIFF_MAX; lia).
    replace (Z.to_nat (Z.of_nat n + (1 + Z.of_nat n')))
      with (n + S n')%nat by lia.
    destruct (add_bad_sectors_then ts t (String "," (spec_string t' ts')) []
                (replicate (n + S n') None) Hok) as [_ H];
      [rewrite length_replicate; fold n; lia|].
    change (Z.of_nat (length [])) with 0 in H. rewrite !app_nil_l in H.
    fold n in H. rewrite H. clear H.
    rewrite drop_replicate. replace (n + S n' - n)%nat with (S n') by lia.
    rewrite add_bad_sectors_unfold, strtoul_comma. simpl.
    replace (Z.of_nat n)
      with (Z.of_nat (length (Some <$> spec_sectors (t :: ts))))
      by (by rewrite length_fmap).
    rewrite store_next. simpl. change (wrap64s 0) with 0.
    rewrite (cons_middle (Some 0)), app_assoc.
    replace (0 + Z.of_nat (length (Some <$> spec_sectors (t :: ts))) + 1)
      with (Z.of_nat (length ((Some <$> spec_sectors (t :: ts)) ++ [Some 0])))
      by (rewrite length_app; simpl; lia).
    rewrite add_bad_sectors_spec
      by (try done; rewrite length_replicate; fold n'; lia).
    simpl. fold n'.
    rewrite drop_ge by (rewrite length_replicate; lia).
    rewrite app_nil_r, <- app_assoc.
    change [Some 0] with (Some <$> [0]).
    rewrite <- !fmap_app, contents_written. simpl.
    rewrite length_fmap. fold n. do 2 f_equal. lia.
Qed.

Lemma empty_token_is_sector_0_witness :
  build_bad_sector_list (Some "5-7,"%string) initial_globals
  = Some (set_bad_sectors initial_globals 4 [5; 6; 7; 0]).
Proof.
  assert (∀ d, 0 <= d <= 9 → numeral_ok [d]) as Hdigit.
  { intros d Hd. unfold numeral_ok, numeral_value. simpl.
    split; [discriminate|]. split; [|lia].
    constructor; [exact Hd|constructor]. }
  destruct (empty_token_is_sector_0 (Range [5] [7]) [] initial_globals)
    as [H _].
  - constructor; [|constructor]. simpl.
    split; [apply Hdigit; lia|]. split; [apply Hdigit; lia|].
    unfold numeral_value, OFF_T_MAX. simpl. lia.
  - unfold sizeof_off_t, PTRDIFF_MAX. simpl. lia.
  - exact H.
Defined.

(** X14: a range written backwards is not rejected.  For a list made of one
    range [N-M] with [M < N] (and [N - M] at most 2^60) the count
    [M - N + 1] is taken in [size_t], the allocation of that many cells
    yields no cell, and the first store of [add_bad_sectors] falls outside
    the array: the list has no defined result. *)
Theorem reversed_range_is_undefined n m g :
  numeral_ok n → numeral_ok m →
  numeral_value m < numeral_value n <= numeral_value m + 2 ^ 60 →
  let spec := term_string (Range n m) "" in
  get_sector_count spec
  = (2 ^ 64 - (numeral_value n - numeral_value m - 1)) `mod` 2 ^ 64
  ∧ malloc_cells (get_sector_count spec) = 0
  ∧ add_bad_sectors spec 0 (malloc_array (get_sector_count spec)) = None
  ∧ build_bad_sector_list (Some spec) g = None.
Proof.
  intros Hn Hm Hrev list.
  pose proof (term_value_range n Hn). pose proof (term_value_range m Hm).
  assert (get_sector_count list
          = wrap64u (numeral_value m - numeral_value n + 1)) as Hcount.
  { unfold list. simpl.
    rewrite get_sector_count_unfold, strtoul_numeral by done. simpl.
    rewrite strtoul_numeral by done. by rewrite !wrap64s_small by lia. }
  assert (malloc_cells (get_sector_count list) = 0) as Hcells.
  { rewrite Hcount. unfold malloc_cells, sizeof_off_t, PTRDIFF_MAX, wrap64u.
    destruct (decide (numeral_value n = numeral_value m + 1)) as [->|Hne].
    - replace (numeral_value m - (numeral_value m + 1) + 1) with 0 by lia.
      done.
    - replace ((numeral_value m - numeral_value n + 1) `mod` 2 ^ 64)
        with (numeral_value m - numeral_value n + 1 + 2 ^ 64)
        by (apply Z.mod_unique with (-1); lia).
      replace (((numeral_value m - numeral_value n + 1 + 2 ^ 64) * 8)
                 `mod` 2 ^ 64)
        with (2 ^ 64 - 8 * (numeral_value n - numeral_value m - 1))
        by (apply Z.mod_unique with 7; lia).
      destruct (Z.ltb_spec (2 ^ 63 - 1)
                  (2 ^ 64 - 8 * (numeral_value n - numeral_value m - 1)));
        [done|lia]. }
  assert (add_bad_sectors list 0 (malloc_array (get_sector_count list))
          = None) as Hadd.
  { unfold malloc_array. rewrite Hcells. unfold list. simpl.
    by rewrite add_bad_sectors_unfold, strtoul_numeral. }
  split_and!; [|done|done|].
  - rewrite Hcount. unfold wrap64u.
    replace (2 ^ 64 - (numeral_value n - numeral_value m - 1))
      with (numeral_value m - numeral_value n + 1 + 1 * 2 ^ 64) by lia.
    by rewrite Z.mod_add by lia.
  - unfold build_bad_sector_list. by rewrite Hadd.
Qed.

Lemma reversed_range_is_undefined_witness :
  get_sector_count "7-5" = 2 ^ 64 - 1
  ∧ build_bad_sector_list (Some "7-5"%string) initial_globals = None.
Proof.
  assert (∀ d, 0 <= d <= 9 → numeral_ok [d]) as Hdigit.
  { intros d Hd. unfold numeral_ok, numeral_value. simpl.
    split; [discriminate|]. split; [|lia].
    constructor; [exact Hd|constructor]. }
  pose proof (reversed_range_is_undefined [7] [5] initial_globals) as H.
  cbv zeta in H. destruct H as (Hcount & _ & _ & Hbuild).
  - apply Hdigit. lia.
  - apply Hdigit. lia.
  - unfold numeral_value. simpl. lia.
  - split; [exact Hcount|exact Hbuild].
Defined.

Lemma strtoul_negative ds rest :
  numeral_ok ds → stops rest →
  strtoul (String "-" (numeral_string ds rest))
  = (wrap64u (- numeral_value ds), rest).
Proof.
  intros Hok Hrest. pose proof (numeral_value_nonneg ds Hok) as Hnn.
  destruct Hok as (Hne & Hds & Hlt).
  destruct ds as [|d ds]; [done|].
  pose proof (scan_digits_numeral (d :: ds) 0 rest Hds) as Hscan.
  rewrite (scan_digits_stops (foldl _ _ _) rest) in Hscan by done.
  pose proof (Forall_inv Hds) as Hd.
  destruct (digit_char_props d Hd) as (Hdig & _).
  unfold strtoul. cbn [numeral_string skip_spaces] in *.
  change (isspace "-") with false. cbn [read_sign].
  change (Ascii.eqb "-" "-") with true. cbv iota.
  rewrite Hdig, Hscan. fold (numeral_value (d :: ds)).
  destruct (Z.ltb_spec ULONG_MAX (numeral_value (d :: ds))); [|done].
  unfold ULONG_MAX in *. lia.
Qed.

(** X15: the reserve count is whatever [strtoul] makes of the argument, and
    nothing is rejected: a decimal number gives its value, an argument that
    does not start with a number gives 0, and a negative number [-N] gives
    [2^64 - N], a reserve that no session can use up. *)
Theorem reserve_argument_is_not_checked path ds rest c g :
  numeral_ok ds → stops rest →
  isspace c = false → digit_of c = None →
  Ascii.eqb c "+" = false → Ascii.eqb c "-" = false →
  (∃ g', init_callback path (Some (numeral_string ds rest)) None g = Some g'
         ∧ reserve_sectors g' = numeral_value ds)
  ∧ (∃ g', init_callback path (Some (String c rest)) None g = Some g'
           ∧ reserve_sectors g' = 0)
  ∧ (0 < numeral_value ds →
     ∃ g', init_callback path (Some (String "-" (numeral_string ds rest)))
             None g = Some g'
           ∧ reserve_sectors g' = 2 ^ 64 - numeral_value ds).
Proof.
  intros Hok Hrest Hsp Hdig Hplus Hminus. unfold init_callback. simpl.
  split_and!.
  - eexists. split; [done|]. simpl. by rewrite strtoul_numeral.
  - eexists. split; [done|]. simpl.
    unfold strtoul. simpl. rewrite Hsp. simpl.
    by rewrite Hminus, Hplus, Hdig.
  - intros Hpos. eexists. split; [done|]. simpl.
    rewrite strtoul_negative by done. simpl. unfold wrap64u.
    destruct Hok as (_ & _ & Hlt).
    symmetry. apply Z.mod_unique with (-1); lia.
Qed.

Lemma reserve_argument_is_not_checked_witness :
  (∃ g', init_callback "/disk.img" (Some "3"%string) None initial_globals
         = Some g' ∧ reserve_sectors g' = 3)
  ∧ (∃ g', init_callback "/disk.img" (Some "x"%string) None initial_globals
           = Some g' ∧ reserve_sectors g' = 0)
  ∧ (∃ g', init_callback "/disk.img" (Some "-3"%string) None initial_globals
           = Some g' ∧ reserve_sectors g' = 2 ^ 64 - 3).
Proof.
  destruct (reserve_argument_is_not_checked "/disk.img" [3] "" "x"
              initial_globals) as (H1 & H2 & H3).
  - unfold numeral_ok, numeral_value. simpl.
    split; [discriminate|]. split; [|lia]. constructor; [lia|constructor].
  - exact I.
  - reflexivity.
  - reflexivity.
  - reflexivity.
  - reflexivity.
  - split; [exact H1|]. split; [exact H2|]. apply H3. reflexivity.
Defined.

(** X16: with a bad-sector array without duplicates, a write that reached
    the image can be repeated at no cost: the same write succeeds again and
    leaves the globals, the reserve count included, as they are. *)
Theorem repeated_write_costs_nothing
    st_size st_size' path size offset g len g1 g' :
  wf g → path = filepath g → get_disk_size st_size g = (len, g1) →
  0 <= offset < len → len + sector_size <= 2 ^ 63 → 0 <= size < 2 ^ 63 →
  NoDup (bad_sectors g) →
  write_callback st_size path size offset g
  = Some (Backing_pwrite (truncate_size len size offset) offset, g') →
  write_callback st_size' path size offset g'
  = Some (Backing_pwrite (truncate_size len size offset) offset, g').
Proof.
  intros Hwf Hpath Hlen Hoff Hmax Hsize Hnd Hwrite.
  destruct (write_reached_image st_size st_size' path size offset g len g1 g')
    as (Hwf' & Hpath' & Hlen' & Hbad); [done..|].
  rewrite (write_callback_in_disk st_size' path size offset g' len g')
    by done.
  rewrite write_scan_clean; [done|done|].
  intros s Hs Hin. apply elem_of_seqZ in Hs.
  apply Hbad in Hin; [|lia].
  pose proof (occurrences_NoDup s _ Hnd). lia.
Qed.

Lemma repeated_write_costs_nothing_witness :
  write_callback 1000000 "/disk.img" 512 4608 example_repaired
  = Some (Backing_pwrite 512 4608, example_repaired).
Proof.
  assert (0 <= 4608 < 1000000) as H1 by lia.
  assert (1000000 + sector_size <= 2 ^ 63) as H2 by (unfold sector_size; lia).
  assert (0 <= 512 < 2 ^ 63) as H3 by lia.
  apply (repeated_write_costs_nothing 1000000 1000000 "/disk.img" 512 4608
           example_globals 1000000 example_globals example_repaired
           example_globals_wf eq_refl eq_refl H1 H2 H3).
  - simpl. repeat constructor; rewrite ?elem_of_cons, ?elem_of_nil; lia.
  - reflexivity.
Defined.

(** The loop of a range that has to reach [OFF_T_MAX] has no result: a store
    fails before, or the counter is incremented past [OFF_T_MAX]. *)
Lemma store_range_overflow (k : nat) : ∀ (mem : block) base first a,
  (0 < k)%nat → a + Z.of_nat k = OFF_T_MAX + 1 →
  store_range mem base first (seqZ a (Z.of_nat k)) = None.
Proof.
  induction k as [|k IH]; intros mem base first a Hk Ha; [lia|].
  rewrite seqZ_cons by lia.
  replace (Z.pred (Z.of_nat (S k))) with (Z.of_nat k) by lia.
  cbn [store_range].
  destruct (store mem (base + (a - first)) a) as [mem'|]; [|done]. simpl.
  destruct (Z.eqb_spec a OFF_T_MAX) as [->|Hne]; [done|].
  apply IH; lia.
Qed.

(** X17: a range whose upper end is the largest [off_t],
    9223372036854775807, has no defined result, whatever its lower end and
    whatever array it is given: the counter of the loop
    [for (i = first_sector + 1; i <= last_sector; i++)] cannot pass
    [last_sector], so the loop stores outside the array or increments the
    counter past [OFF_T_MAX]. *)
Theorem range_up_to_OFF_T_MAX_is_undefined n m rest sector_array mem g :
  numeral_ok n → numeral_ok m → stops rest →
  numeral_value m = OFF_T_MAX →
  add_bad_sectors (term_string (Range n m) rest) sector_array mem = None
  ∧ build_bad_sector_list (Some (term_string (Range n m) rest)) g = None.
Proof.
  intros Hn Hm Hrest Hmax.
  pose proof (term_value_range n Hn) as Hvn.
  pose proof (term_value_range m Hm) as Hvm.
  assert (∀ sector_array mem,
            add_bad_sectors (term_string (Range n m) rest) sector_array mem
            = None) as Hadd.
  { clear sector_array mem. intros sector_array mem. simpl.
    rewrite add_bad_sectors_unfold, strtoul_numeral by done. simpl.
    rewrite strtoul_numeral by done.
    rewrite !wrap64s_small by lia.
    destruct (store mem sector_array (numeral_value n)) as [mem'|]; [|done].
    simpl.
    destruct (Z.eqb_spec (numeral_value n) OFF_T_MAX) as [_|Hne]; [done|].
    replace (numeral_value m - numeral_value n)
      with (Z.of_nat (Z.to_nat (OFF_T_MAX - numeral_value n)))
      by (unfold OFF_T_MAX in *; lia).
    rewrite store_range_overflow; [done| |];
      unfold OFF_T_MAX in *; lia. }
  split; [apply Hadd|].
  unfold build_bad_sector_list. by rewrite Hadd.
Qed.

Lemma range_up_to_OFF_T_MAX_is_undefined_witness :
  build_bad_sector_list
    (Some "9223372036854775806-9223372036854775807"%string) initial_globals
  = None
  ∧ build_bad_sector_list
      (Some "9223372036854775807-9223372036854775807"%string) initial_globals
    = None.
Proof.
  assert (numeral_ok [9; 2; 2; 3; 3; 7; 2; 0; 3; 6; 8; 5; 4; 7; 7; 5; 8; 0; 6])
    as H806.
  { unfold numeral_ok, numeral_value. simpl.
    split; [discriminate|]. split; [|lia].
    repeat (constructor; [lia|]). constructor. }
  assert (numeral_ok [9; 2; 2; 3; 3; 7; 2; 0; 3; 6; 8; 5; 4; 7; 7; 5; 8; 0; 7])
    as H807.
  { unfold numeral_ok, numeral_value. simpl.
    split; [discriminate|]. split; [|lia].
    repeat (constructor; [lia|]). constructor. }
  split.
  - exact (proj2 (range_up_to_OFF_T_MAX_is_undefined
                    _ _ "" 0 [] initial_globals H806 H807 I eq_refl)).
  - exact (proj2 (range_up_to_OFF_T_MAX_is_undefined
                    _ _ "" 0 [] initial_globals H807 H807 I eq_refl)).
Defined.
